(** * rpc-tester: a shallow embedding of [src/index.js]

  Part I follows the source file top-down:
  - [Js]          the JavaScript values the program handles and the
                  coercions it applies to them;
  - [Args]        [parseInt] and [parseArgs];
  - [Scheduler]   [batchCall], its shared cursor, its workers and the
                  event-loop trace of one call;
  - [Regex]       [HEX_RESULT] and the matcher behind [test];
  - [Model]       the records of the data model, the runtime library and
                  the network the program talks to;
  - [Prober]      [extractHost], [checkConnect], [checkRpc], [checkIpv6]
                  and the task body built in [main];
  - [Chains]      [getRpcs] and the loop of [main] over the chains.

  Part II holds the notions the statements are phrased with ([Spec]) and
  the inputs the program is run on ([Samples]); Part III holds the
  theorems, one module of facts per module of Part I. *)

From Stdlib Require Import ZArith Lia Ascii.
From Equations Require Import Equations.
From stdpp Require Import base decidable option list strings pretty gmap fin_maps.

Local Open Scope string_scope.
Local Open Scope list_scope.
Local Open Scope Z_scope.

(* ===================================================================== *)
(** * Part I: definitions                                                 *)
(* ===================================================================== *)

(** ** JavaScript values *)

Module Js.

(** The primitive values that reach the program as a chain name, a chain
    id or an endpoint URL.  Numbers are the integers; a chain id or a
    batch size with a fractional part is outside this model. *)
Inductive value : Type :=
| Undefined
| Null
| Num (n : Z)
| Str (s : string).

(** [String(v)], also what a template literal and the [USVString]
    conversion of [fetch] and [new URL] produce. *)
Definition to_String (v : value) : string :=
  match v with
  | Undefined => "undefined"
  | Null => "null"
  | Num n => pretty n
  | Str s => s
  end.

(** [v == null] *)
Definition nullish (v : value) : bool :=
  match v with
  | Undefined | Null => true
  | _ => false
  end.

(** [a ?? b] *)
Definition coalesce (a b : value) : value :=
  if nullish a then b else a.

(** A parsed JSON text (the result of [JSON.parse] or [res.json()]); an
    object lists its own properties, each key once. *)
#[warnings="-register-all"] Inductive json : Type :=
| JNull
| JBool (b : bool)
| JNumber (n : Z)
| JString (s : string)
| JArray (items : list json)
| JObject (fields : list (string * json)).

Fixpoint assoc (k : string) (fields : list (string * json)) : option json :=
  match fields with
  | [] => None
  | (k', v) :: rest => if decide (k = k') then Some v else assoc k rest
  end.

(** [data?.k]: [None] stands for [undefined].  [null] is caught by the
    optional chaining; a string, a number, a boolean or an array parsed
    from JSON has no property named [result]. *)
Definition optional_field (data : json) (k : string) : option json :=
  match data with
  | JObject fields => assoc k fields
  | _ => None
  end.

(** The errors the program can die of. *)
Inductive error : Type :=
| TypeError
| SyntaxError.

End Js.

(** ** Command line: [parseArgs] (index.js:26-49) *)

Module Args.

Definition BATCH_SIZE : Z := 16.

(** [StrWhiteSpaceChar] restricted to the code units below 256. *)
Definition is_space (c : ascii) : bool :=
  let n := nat_of_ascii c in
  bool_decide (n = 9 ∨ n = 10 ∨ n = 11 ∨ n = 12 ∨ n = 13 ∨ n = 32 ∨ n = 160)%nat.

Definition digit (c : ascii) : option Z :=
  let n := Z.of_nat (nat_of_ascii c) in
  if bool_decide (48 ≤ n ≤ 57) then Some (n - 48) else None.

Fixpoint skip_spaces (s : string) : string :=
  match s with
  | String c s' => if is_space c then skip_spaces s' else s
  | EmptyString => s
  end.

(** The longest prefix of decimal digits, read as a number; [acc] is
    [None] as long as no digit was seen. *)
Fixpoint digits (s : string) (acc : option Z) : option Z :=
  match s with
  | String c s' =>
      match digit c with
      | Some d => digits s' (Some (10 * default 0 acc + d))
      | None => acc
      end
  | EmptyString => acc
  end.

(** [parseInt(s, 10)]; [None] is [NaN].  With the radix given as 10 no
    [0x] prefix is stripped.  A value beyond 2^53 is rounded by
    JavaScript; the only use of the result is [Math.min(batch, 128)],
    which does not see the difference. *)
Definition parseInt (s : string) : option Z :=
  match skip_spaces s with
  | String "-" s' => Z.opp <$> digits s' None
  | String "+" s' => digits s' None
  | s' => digits s' None
  end.

(** [s.split("=")]: the pieces of [s] between the [=] signs. *)
Fixpoint split_eq (s : string) : list string :=
  match s with
  | EmptyString => [EmptyString]
  | String c s' =>
      if decide (c = "="%char) then EmptyString :: split_eq s'
      else
        match split_eq s' with
        | piece :: pieces => String c piece :: pieces
        | [] => [String c EmptyString]
        end
  end.

(** [process.argv.find((a) => a.startsWith(p))] *)
Definition find_arg (p : string) (argv : list string) : option string :=
  snd <$> list_find (λ a, String.prefix p a = true) argv.

(** The part of the record [parseArgs] returns that the probing loop
    reads.  [chainIds] only selects which chains are handed to the loop
    and is left out. *)
Record args : Type := {
  outDir : string;
  skipExisting : bool;
  batchSize : Z
}.

(** index.js:42: [batchArg ? parseInt(batchArg.split("=")[1], 10)
    : BATCH_SIZE]; [parseInt(undefined, 10)] is [NaN]. *)
Definition batch (argv : list string) : option Z :=
  match find_arg "--batch=" argv with
  | Some batchArg =>
      match split_eq batchArg !! 1%nat with
      | Some v => parseInt v
      | None => None
      end
  | None => Some BATCH_SIZE
  end.

(** index.js:47: [Number.isNaN(batch) || batch < 1 ? BATCH_SIZE
    : Math.min(batch, 128)] *)
Definition clamp_batch (batch : option Z) : Z :=
  match batch with
  | None => BATCH_SIZE
  | Some b => if bool_decide (b < 1) then BATCH_SIZE else Z.min b 128
  end.

Definition parseArgs (argv : list string) : args :=
  {| outDir :=
       match find_arg "--out=" argv with
       | Some out => default "undefined" (split_eq out !! 1%nat)
       | None => "./rpcs"
       end;
     skipExisting := bool_decide ("--skip-existing" ∈ argv);
     batchSize := clamp_batch (batch argv) |}.

End Args.

(** ** The bounded work scheduler: [batchCall] (index.js:51-63) *)

Module Scheduler.

Section BatchCall.
Context {V E : Type}.

(** How a promise ends: fulfilled with a value or rejected with a reason. *)
Inductive settled : Type :=
| Fulfilled (v : V)
| Rejected (e : E).

(** A task is a zero-argument [async] function (index.js:188 builds each
    one as [async () => ...]).  Calling it cannot throw: the call runs
    the body up to its first [await] (the body of every task of [main]
    starts with one) and returns a pending promise, which a later job of
    the event loop settles.  JavaScript runs each job to completion, so
    no promise settles while the synchronous code of [batchCall] runs. *)
Record task : Type := Async { settles_to : settled }.

(** The promise [tasks[i]()] returns, tagged with the index of the task
    that made it. *)
Record promise : Type := Promise { origin : nat; fate : settled }.

(** What an observer of one [batchCall] sees: a task is called, a task's
    promise settles. *)
Inductive event : Type :=
| Start (i : nat)
| Settle (i : nat).

(** The variables shared by all workers through the closure:
    [index] (index.js:53), [results] (index.js:52, an array that may
    have holes), and the trace of calls made so far. *)
Record closure : Type := Closure {
  index : nat;
  results : list (option promise);
  trace : list event
}.

(** [a[i] = x] on a JavaScript array: overwrite in range, otherwise grow
    the array, leaving holes below [i]. *)
Definition array_set {A} (a : list (option A)) (i : nat) (x : A)
  : list (option A) :=
  if decide (i < length a)%nat
  then <[i := Some x]> a
  else a ++ replicate (i - length a) None ++ [Some x].

(** One turn of the loop body (index.js:56-57):
    [const i = index++; results[i] = tasks[i]()].
    No [await] stands before the call, so the worker does not wait for
    the promise. *)
Definition claim (tasks : list task) (st : closure) : closure :=
  let i := index st in
  match tasks !! i with
  | Some t =>
      {| index := S i;
         results := array_set (results st) i (Promise i (settles_to t));
         trace := trace st ++ [Start i] |}
  | None =>
      (* [tasks[i]] is not a function; the guard of the loop excludes it *)
      {| index := S i; results := results st; trace := trace st |}
  end.

(** [worker] (index.js:54-59): [while (index < tasks.length) { ... }].
    The body holds no suspension point, hence one call of [worker] runs
    the whole loop before anything else happens. *)
Equations? worker (tasks : list task) (st : closure) : closure
  by wf (length tasks - index st)%nat lt :=
  worker tasks st with decide (index st < length tasks)%nat := {
    | left _ => worker tasks (claim tasks st);
    | right _ => st }.
Proof. unfold claim. destruct (tasks !! index st); simpl; lia. Qed.

(** [Array.from({ length: Math.min(concurrency, tasks.length) },
    () => worker())] (index.js:60): the workers are called one after the
    other.  A negative length counts as zero. *)
Definition workers (tasks : list task) (concurrency : Z) : nat :=
  Z.to_nat (Z.min concurrency (Z.of_nat (length tasks))).

Definition spawn (tasks : list task) (concurrency : Z) : closure :=
  Nat.iter (workers tasks concurrency) (worker tasks)
           {| index := 0; results := []; trace := [] |}.

(** The positions of [results] that hold a promise. *)
Definition promised (rs : list (option promise)) : list nat :=
  omap (fun o : option promise => origin <$> o) rs.

(** The order in which the event loop settles the promises in flight.
    [sched] is the order the environment picks: an entry settles the
    named promise if it is still pending and is ignored otherwise; the
    promises the schedule leaves pending settle after it, oldest first
    (every task ends). *)
Fixpoint settle_order (running sched : list nat) : list nat :=
  match sched with
  | [] => running
  | i :: sched' =>
      if decide (i ∈ running)
      then i :: settle_order (filter (λ j, j ≠ i) running) sched'
      else settle_order running sched'
  end.

(** The trace of a whole call: the synchronous part, then the
    settlements. *)
Definition batchCall_trace (tasks : list task) (concurrency : Z)
           (sched : list nat) : list event :=
  let st := spawn tasks concurrency in
  trace st ++ (Settle <$> settle_order (promised (results st)) sched).

(** The tasks in flight after a trace: called and not yet settled. *)
Fixpoint running_after (tr : list event) (acc : list nat) : list nat :=
  match tr with
  | [] => acc
  | Start i :: tr' => running_after tr' (acc ++ [i])
  | Settle i :: tr' => running_after tr' (filter (λ j, j ≠ i) acc)
  end.

Definition in_flight (tr : list event) : nat :=
  length (running_after tr []).

(** The tasks called in a trace, in call order. *)
Definition claimed (tr : list event) : list nat :=
  omap (λ ev, match ev with Start i => Some i | Settle _ => None end) tr.

(** How the promise returned by [batchCall] ends. *)
Inductive completion : Type :=
| Returns (outcomes : list (option V))
| Throws (e : E).

Definition rejection (rs : list (option promise)) (i : nat) : option E :=
  match rs !! i with
  | Some (Some (Promise _ (Rejected e))) => Some e
  | _ => None
  end.

Fixpoint first_rejection (rs : list (option promise)) (order : list nat)
  : option E :=
  match order with
  | [] => None
  | i :: order' =>
      match rejection rs i with
      | Some e => Some e
      | None => first_rejection rs order'
      end
  end.

(** The value [Promise.all] collects at one position: the value the
    promise is fulfilled with; a hole counts as [undefined] ([None]). *)
Definition collected (o : option promise) : option V :=
  match o with
  | Some (Promise _ (Fulfilled v)) => Some v
  | _ => None
  end.

(** [Promise.all(results)] (index.js:62): rejected with the reason of the
    first promise to be rejected, otherwise fulfilled with the values in
    array order once every promise is fulfilled.  [order] is the order in
    which the promises settle. *)
Definition promise_all (rs : list (option promise)) (order : list nat)
  : completion :=
  match first_rejection rs order with
  | Some e => Throws e
  | None => Returns (collected <$> rs)
  end.

(** [batchCall] (index.js:51-63).  [await Promise.all(workers)]
    (index.js:61) always continues: a worker awaits nothing and calls
    only functions that cannot throw, so its promise is fulfilled. *)
Definition batchCall (tasks : list task) (concurrency : Z)
           (sched : list nat) : completion :=
  let st := spawn tasks concurrency in
  promise_all (results st) (settle_order (promised (results st)) sched).

End BatchCall.

Arguments settled : clear implicits.
Arguments task : clear implicits.
Arguments promise : clear implicits.
Arguments closure : clear implicits.
Arguments completion : clear implicits.

End Scheduler.

(** ** Regular expressions: [HEX_RESULT] (index.js:13) *)

Module Regex.

(** Regular expressions over code units, matched with derivatives. *)
Inductive re : Type :=
| Void
| Eps
| Class (p : ascii → bool)
| Cat (r1 r2 : re)
| Alt (r1 r2 : re)
| Star (r : re).

Fixpoint nullable (r : re) : bool :=
  match r with
  | Void => false
  | Eps => true
  | Class _ => false
  | Cat r1 r2 => nullable r1 && nullable r2
  | Alt r1 r2 => nullable r1 || nullable r2
  | Star _ => true
  end.

Fixpoint deriv (c : ascii) (r : re) : re :=
  match r with
  | Void => Void
  | Eps => Void
  | Class p => if p c then Eps else Void
  | Cat r1 r2 =>
      if nullable r1
      then Alt (Cat (deriv c r1) r2) (deriv c r2)
      else Cat (deriv c r1) r2
  | Alt r1 r2 => Alt (deriv c r1) (deriv c r2)
  | Star r1 => Cat (deriv c r1) (Star r1)
  end.

(** Does the whole of [s] match [r]? *)
Fixpoint matches (r : re) (s : string) : bool :=
  match s with
  | EmptyString => nullable r
  | String c s' => matches (deriv c r) s'
  end.

(** [r+] *)
Definition plus (r : re) : re := Cat r (Star r).

(** [c] *)
Definition lit (c : ascii) : re := Class (Ascii.eqb c).

Definition between (lo hi : ascii) (c : ascii) : bool :=
  (nat_of_ascii lo <=? nat_of_ascii c)%nat && (nat_of_ascii c <=? nat_of_ascii hi)%nat.

(** [[0-9a-fA-F]] *)
Definition hex_class (c : ascii) : bool :=
  between "0" "9" c || between "a" "f" c || between "A" "F" c.

(** [/^0x[0-9a-fA-F]+$/]: with [^] in front, [$] at the end and no flag,
    [test] succeeds when the whole string matches the body. *)
Definition HEX_RESULT : re :=
  Cat (lit "0") (Cat (lit "x") (plus (Class hex_class))).

Definition test (r : re) (s : string) : bool := matches r s.

End Regex.

(** ** The data model and the outside world *)

Module Model.
Import Js.

(** A working endpoint, [{ url, supportsIpv6 }] (index.js:195). *)
Record rpcInfo : Type := RpcInfo { url : value; supportsIpv6 : bool }.

(** What is written per chain, [{ name, chainId, rpcs }] (index.js:217). *)
Record payload : Type := Payload {
  p_name : value;
  p_chainId : value;
  p_rpcs : list rpcInfo
}.

(** An entry of a chain's [rpc] array: a string, an object (with the
    value of its [url] property, [Undefined] when it has none), or
    [null]. *)
Inductive entry : Type :=
| EntryString (s : string)
| EntryObject (url : value)
| EntryNull.

(** A chain descriptor of the directory; [rpc] is [None] when the
    property is missing. *)
Record chain : Type := Chain {
  name : value;
  chainId : value;
  rpc : option (list entry)
}.

(** The pure library functions of the runtime the program calls:
    [new URL(u).hostname] ([None] when the constructor throws),
    [JSON.parse] ([None] when it throws) and
    [JSON.stringify(payload, null, 2)]. *)
Record platform : Type := Platform {
  URL_hostname : string → option string;
  JSON_parse : string → option json;
  JSON_stringify : payload → string
}.

(** What the network answers to one request.  [after_ms] is the time
    the answer takes. *)
Inductive http_reply : Type :=
| Unreachable
| Response (after_ms : Z) (body : option json).

Inductive dns_reply : Type :=
| DnsFailure
| DnsAnswer (after_ms : Z) (records : list string).

(** The network as one probe sees it. *)
Record network : Type := Network {
  http_get : string → http_reply;
  http_post : string → http_reply;
  dns_aaaa : string → dns_reply
}.

(** The calls the program issues to the runtime's network functions. *)
Inductive call : Type :=
| Get (u : string)
| Post (u : string)
| Resolve (host : string).

(** A value of the [merged] object: a payload built in this run, or the
    parsed content of a file found on disk. *)
Inductive document : Type :=
| Fresh (p : payload)
| Loaded (j : json).

Inductive result (A : Type) : Type :=
| Ok (a : A)
| Crash (e : error).
Arguments Ok {A} a.
Arguments Crash {A} e.

(** A computation that issues network calls: the calls, then its value. *)
Definition IO (A : Type) : Type := list call * A.

#[global] Instance IO_ret : MRet IO := λ A a, ([], a).
#[global] Instance IO_bind : MBind IO :=
  λ A B f m, let '(l1, a) := m in let '(l2, b) := f a in (l1 ++ l2, b).

Definition issue (c : call) : IO unit := ([c], tt).

#[global] Instance value_eq_dec : EqDecision value.
Proof. solve_decision. Defined.

End Model.

(** ** The endpoint prober (index.js:75-123 and 188-196) *)

Module Prober.
Import Js Model.

Definition CONNECT_TIMEOUT_MS : Z := 3000.
Definition RPC_TIMEOUT_MS : Z := 10000.
(** The literal of index.js:118. *)
Definition DNS_TIMEOUT_MS : Z := 5000.

(** [extractHost] (index.js:75-81) *)
Definition extractHost (pf : platform) (u : value) : string :=
  match URL_hostname pf (to_String u) with
  | Some hostname => hostname
  | None => ""
  end.

(** [await fetch(url, { ..., signal: AbortSignal.timeout(ms) })]:
    [None] when the promise is rejected (the URL does not parse, the
    network fails, or the signal fires first), otherwise the response,
    given by what [res.json()] yields on its body. *)
Definition fetch (pf : platform) (answer : string → http_reply)
           (u : value) (timeout_ms : Z) : option (option json) :=
  match URL_hostname pf (to_String u) with
  | None => None
  | Some _ =>
      match answer (to_String u) with
      | Unreachable => None
      | Response after_ms body =>
          if bool_decide (after_ms < timeout_ms) then Some body else None
      end
  end.

(** [checkConnect] (index.js:83-92) *)
Definition checkConnect (pf : platform) (net : network) (u : value) : IO bool :=
  _ ← issue (Get (to_String u));
  match fetch pf (http_get net) u CONNECT_TIMEOUT_MS with
  | Some _ => mret true
  | None => mret false
  end.

(** index.js:108-109: [const result = data?.result;
    typeof result === "string" && HEX_RESULT.test(result)] *)
Definition hex_result (data : json) : bool :=
  match optional_field data "result" with
  | Some (JString result) => Regex.test Regex.HEX_RESULT result
  | _ => false
  end.

(** [checkRpc] (index.js:94-113) *)
Definition checkRpc (pf : platform) (net : network) (u : value) : IO bool :=
  _ ← issue (Post (to_String u));
  match fetch pf (http_post net) u RPC_TIMEOUT_MS with
  | Some (Some data) => mret (hex_result data)
  | Some None => mret false
  | None => mret false
  end.

(** [Promise.race([dnsResolve(host, "AAAA"), <timer of 5000 ms>])]:
    [None] when the race is lost or the resolver fails. *)
Definition race_dns (net : network) (host : string) : option (list string) :=
  match dns_aaaa net host with
  | DnsFailure => None
  | DnsAnswer after_ms records =>
      if bool_decide (after_ms < DNS_TIMEOUT_MS) then Some records else None
  end.

(** [checkIpv6] (index.js:115-123) *)
Definition checkIpv6 (net : network) (host : string) : IO bool :=
  if decide (host = "") then mret false
  else
    _ ← issue (Resolve host);
    match race_dns net host with
    | Some aaaa => mret (bool_decide (0 < length aaaa)%nat)
    | None => mret false
    end.

(** The task built for one URL (index.js:188-196). *)
Definition probe (pf : platform) (net : network) (u : value)
  : IO (option rpcInfo) :=
  connected ← checkConnect pf net u;
  if negb connected then mret None
  else
    rpcOk ← checkRpc pf net u;
    if negb rpcOk then mret None
    else
      let host := extractHost pf u in
      v6 ← checkIpv6 net host;
      mret (Some {| url := u; supportsIpv6 := v6 |}).

End Prober.

(** ** The chain processor: [getRpcs] and the loop of [main]
     (index.js:65-73 and 158-222) *)

Module Chains.
Import Js Model.

(** index.js:69: [typeof entry === "string" ? entry : entry?.url] *)
Definition entry_url (e : entry) : value :=
  match e with
  | EntryString s => Str s
  | EntryObject u => u
  | EntryNull => Undefined
  end.

(** [getRpcs] (index.js:65-73): [chain.rpc || []], then one [push] per
    entry; nothing is filtered out. *)
Definition getRpcs (c : chain) : list value :=
  let rpc := default [] (rpc c) in
  foldl (λ urls e, urls ++ [entry_url e]) [] rpc.

(** The run-wide counters (index.js:151-155). *)
Record totals : Type := Totals {
  totalRpcChecked : nat;
  totalWorking : nat;
  skipped : nat;
  written : nat
}.

(** The state the loop of [main] works on: the files of the output
    directory, the [merged] object, the network calls issued so far and
    the counters. *)
Record run : Type := Run {
  fs : gmap string string;
  merged : gmap string document;
  calls : list call;
  counters : totals
}.

(** [path.join(outDir, file)]; the normalisation of [.] and [..]
    segments is not modelled. *)
Definition path_join (outDir file : string) : string :=
  outDir +:+ "/" +:+ file.

Definition chain_file (outDir : string) (chainId : value) : string :=
  path_join outDir (to_String chainId +:+ ".json").

(** index.js:204: [url.length > 60 ? url.slice(0, 57) + "..." : url].
    Reading [length] off [undefined] or [null] throws; a number has no
    [length], and [undefined > 60] is false. *)
Definition shortUrl (u : value) : result string :=
  match u with
  | Undefined | Null => Crash TypeError
  | Str s =>
      if bool_decide (60 < String.length s)%nat
      then Ok (String.substring 0 57 s +:+ "...")
      else Ok s
  | Num n => Ok (to_String (Num n))
  end.

(** [outcomes[idx]] followed by the test [!result]: a position past the
    end and a hole read as [undefined], which fails the test like the
    [null] of a failed probe. *)
Definition outcome_at (outcomes : list (option (option rpcInfo))) (idx : nat)
  : option rpcInfo :=
  match outcomes !! idx with
  | Some (Some (Some r)) => Some r
  | _ => None
  end.

(** The loop over the outcomes (index.js:200-215), from position [idx]
    on; [rest] is [urls.slice(idx)]. *)
Fixpoint collect (rest : list value) (idx : nat)
         (outcomes : list (option (option rpcInfo)))
         (rpcs : list rpcInfo) (checked working : nat)
  : result (list rpcInfo * nat * nat) :=
  match rest with
  | [] => Ok (rpcs, checked, working)
  | u :: rest' =>
      let checked := S checked in
      let result := outcome_at outcomes idx in
      match shortUrl u with
      | Crash e => Crash e
      | Ok _ =>
          match result with
          | None => collect rest' (S idx) outcomes rpcs checked working
          | Some r =>
              collect rest' (S idx) outcomes (rpcs ++ [r]) checked (S working)
          end
      end
  end.

(** [urls.map((url) => async () => { ... })] (index.js:188-196).  The
    probe of candidate [idx] sees the network [net idx].  No stage lets
    an exception escape, so each task is fulfilled. *)
Definition taskFns (pf : platform) (net : nat → network) (urls : list value)
  : list (Scheduler.task (option rpcInfo) error) :=
  imap (λ idx u, Scheduler.Async (Scheduler.Fulfilled (Prober.probe pf (net idx) u).2)) urls.

(** The network calls of the tasks that were started, grouped by task
    (the interleaving between tasks in flight is not represented). *)
Definition task_calls (pf : platform) (net : nat → network)
           (urls : list value) (started : list nat) : list call :=
  started ≫= λ idx,
    match urls !! idx with
    | Some u => (Prober.probe pf (net idx) u).1
    | None => []
    end.

(** index.js:217-220 (and 176-181): write the per-chain file, record the
    payload in [merged], count the chain as written. *)
Definition persist (filePath : string) (pf : platform) (p : payload)
           (st : run) : run :=
  let t := counters st in
  {| fs := <[filePath := JSON_stringify pf p]> (fs st);
     merged := <[to_String (p_chainId p) := Fresh p]> (merged st);
     calls := calls st;
     counters := {| totalRpcChecked := totalRpcChecked t;
                    totalWorking := totalWorking t;
                    skipped := skipped t;
                    written := S (written t) |} |}.

(** One turn of the loop over the chains (index.js:158-222).
    [sched] is the order in which the event loop settles the probes of
    this chain. *)
Definition process_chain (pf : platform) (a : Args.args)
           (net : nat → network) (sched : list nat)
           (st : run) (c : chain) : result run :=
  let name := coalesce (name c) (Str "unknown") in
  let chainId := chainId c in
  if nullish chainId || bool_decide (chainId = Str "") then Ok st
  else
    let filePath := chain_file (Args.outDir a) chainId in
    if Args.skipExisting a && bool_decide (is_Some (fs st !! filePath)) then
      match fs st !! filePath ≫= JSON_parse pf with
      | None => Crash SyntaxError
      | Some existing =>
          let t := counters st in
          Ok {| fs := fs st;
                merged := <[to_String chainId := Loaded existing]> (merged st);
                calls := calls st;
                counters := {| totalRpcChecked := totalRpcChecked t;
                               totalWorking := totalWorking t;
                               skipped := S (skipped t);
                               written := written t |} |}
      end
    else
      let urls := getRpcs c in
      if bool_decide (length urls = 0%nat) then
        Ok (persist filePath pf (Payload name chainId []) st)
      else
        let tasks := taskFns pf net urls in
        let concurrency := Args.batchSize a in
        let started :=
          Scheduler.claimed (Scheduler.trace (Scheduler.spawn tasks concurrency)) in
        match Scheduler.batchCall tasks concurrency sched with
        | Scheduler.Throws e => Crash e
        | Scheduler.Returns outcomes =>
            let t := counters st in
            match collect urls 0 outcomes []
                          (totalRpcChecked t) (totalWorking t) with
            | Crash e => Crash e
            | Ok (rpcs, checked, working) =>
                Ok (persist filePath pf (Payload name chainId rpcs)
                      {| fs := fs st;
                         merged := merged st;
                         calls := calls st ++ task_calls pf net urls started;
                         counters := {| totalRpcChecked := checked;
                                        totalWorking := working;
                                        skipped := skipped t;
                                        written := written t |} |})
            end
        end.

(** The loop over the chains, in the order of the list; the chain at
    position [k] sees the network [net k] and the schedule [sched k]. *)
Fixpoint main_loop (pf : platform) (a : Args.args)
         (net : nat → nat → network) (sched : nat → list nat)
         (k : nat) (chains : list chain) (st : run) : result run :=
  match chains with
  | [] => Ok st
  | c :: chains' =>
      match process_chain pf a (net k) (sched k) st c with
      | Ok st' => main_loop pf a net sched (S k) chains' st'
      | Crash e => Crash e
      end
  end.

End Chains.

(** ** Which chains to process: [parseChainsFromFile], the [chainIds] of
       [parseArgs] and the filter of [main]
       (index.js:16-24, 27-41 and 138-141) *)

Module Selection.
Import Js Model Args.

(** A chain id read from the command line or from a file is the integer
    [parseInt] finds.  JavaScript rounds an integer beyond 2^53 to the
    nearest number it can represent; up to that bound the integers here
    are the numbers of the program. *)
Definition safe (n : Z) : Prop := - 2 ^ 53 < n < 2 ^ 53.

(** [s.trim()]: [trimEnd] after [trimStart], with the white space of
    [Args.is_space]. *)
Fixpoint trim_end (s : string) : string :=
  match s with
  | EmptyString => EmptyString
  | String c s' =>
      match trim_end s' with
      | EmptyString => if is_space c then EmptyString else String c EmptyString
      | t => String c t
      end
  end.

Definition trim (s : string) : string := trim_end (skip_spaces s).

(** [s.split(sep)] for a separator of one character. *)
Fixpoint split_at (sep : ascii) (s : string) : list string :=
  match s with
  | EmptyString => [EmptyString]
  | String c s' =>
      if decide (c = sep) then EmptyString :: split_at sep s'
      else
        match split_at sep s' with
        | piece :: pieces => String c piece :: pieces
        | [] => [String c EmptyString]
        end
  end.

(** The class [[\n,]] of index.js:20. *)
Definition is_sep (c : ascii) : bool :=
  bool_decide (c = "010"%char ∨ c = ","%char).

(** [raw.split(/[\n,]+/)]: the pieces between the maximal runs of
    separators; [in_run] tells that the character before was a
    separator.  A run at the start or at the end of the text leaves an
    empty piece there, and the empty text is one empty piece. *)
Fixpoint split_runs (in_run : bool) (s : string) : list string :=
  match s with
  | EmptyString => [EmptyString]
  | String c s' =>
      if is_sep c then
        if in_run then split_runs true s'
        else EmptyString :: split_runs true s'
      else
        match split_runs false s' with
        | piece :: pieces => String c piece :: pieces
        | [] => [String c EmptyString]
        end
  end.

(** [.map((s) => parseInt(s.trim(), 10)).filter((n) => !Number.isNaN(n))]
    (index.js:21-22 and 38-39) *)
Definition parse_ids (pieces : list string) : list Z :=
  omap id ((λ s, parseInt (trim s)) <$> pieces).

(** [chainIds.length ? chainIds : null] (index.js:23 and 40) *)
Definition or_null (chainIds : list Z) : option (list Z) :=
  if bool_decide (length chainIds = 0%nat) then None else Some chainIds.

(** [path.isAbsolute] on a POSIX system. *)
Definition isAbsolute (filePath : string) : bool := String.prefix "/" filePath.

(** [parseChainsFromFile] (index.js:16-24).  [disk] holds the text
    files, [dirname] is [__dirname].  The outer [None] stands for the
    exception [readFileSync] throws when there is no such file. *)
Definition parseChainsFromFile (dirname : string) (disk : gmap string string)
           (filePath : string) : option (option (list Z)) :=
  let resolved :=
    if isAbsolute filePath then filePath
    else Chains.path_join dirname filePath in
  match disk !! resolved with
  | None => None
  | Some raw => Some (or_null (parse_ids (split_runs false raw)))
  end.

(** The [chainIds] of [parseArgs] (index.js:27-28 and 31-41); the outer
    [None] stands for an exception. *)
Definition chainIds (dirname : string) (disk : gmap string string)
           (argv : list string) : option (option (list Z)) :=
  match find_arg "--chains-file=" argv with
  | Some chainsFile =>
      match split_eq chainsFile !! 1%nat with
      | Some filePath => parseChainsFromFile dirname disk filePath
      | None => None
      end
  | None =>
      match find_arg "--chains=" argv with
      | Some limitChains =>
          match split_eq limitChains !! 1%nat with
          | Some list => Some (or_null (parse_ids (split_at "," list)))
          | None => None
          end
      | None => Some None
      end
  end.

(** [Number(c.chainId)], as far as membership in a set of integers can
    tell: [None] when the result is [NaN] or not an integer.
    [ToNumber] is the conversion of a string, a function of the
    runtime. *)
Definition Number_of (ToNumber : string → option Z) (v : value) : option Z :=
  match v with
  | Undefined => None
  | Null => Some 0
  | Num n => Some n
  | Str s => ToNumber s
  end.

(** The filter of index.js:138-141:
    [c.chainId != null && chainIdSet.has(Number(c.chainId))], with
    [chainIdSet = new Set(chainIds)]; without [chainIds] every chain of
    the directory is kept. *)
Definition wanted (ToNumber : string → option Z) (chainIdSet : gset Z)
           (c : chain) : bool :=
  negb (nullish (chainId c))
  && match Number_of ToNumber (chainId c) with
     | Some n => bool_decide (n ∈ chainIdSet)
     | None => false
     end.

Definition select (ToNumber : string → option Z) (chainIds : option (list Z))
           (allChains : list chain) : list chain :=
  match chainIds with
  | Some ids =>
      let chainIdSet : gset Z := list_to_set ids in
      filter (λ c, wanted ToNumber chainIdSet c = true) allChains
  | None => allChains
  end.

(** [main] from the parsed arguments to the end of the loop
    (index.js:126, 138-141 and 158-222), for a directory that was
    fetched and is an array.  The outer [None] stands for the exception
    of [parseArgs]. *)
Definition main_body (pf : platform) (ToNumber : string → option Z)
           (dirname : string) (disk : gmap string string)
           (argv : list string) (allChains : list chain)
           (net : nat → nat → network) (sched : nat → list nat)
           (st : Chains.run) : option (result Chains.run) :=
  match chainIds dirname disk argv with
  | None => None
  | Some ids =>
      Some (Chains.main_loop pf (parseArgs argv) net sched 0
              (select ToNumber ids allChains) st)
  end.

End Selection.

(* ===================================================================== *)
(** * Part II: the notions the statements use                            *)
(* ===================================================================== *)

(** ** Specification-side definitions *)

Module Spec.
Import Js Model.

Local Open Scope nat_scope.

Section Scheduler.
Import Scheduler.
Context {V E : Type}.
Implicit Types (tasks : list (task V E)).

(** The closure once the tasks below [k] have been claimed in order. *)
Definition claimed_up_to tasks (k : nat) : closure V E :=
  {| index := k;
     results := imap (λ i t, Some (Promise i (settles_to t))) (take k tasks);
     trace := Start <$> seq 0 k |}.

(** The value a task contributes to the result list. *)
Definition value_of (t : task V E) : option V :=
  match settles_to t with
  | Fulfilled v => Some v
  | Rejected _ => None
  end.

End Scheduler.

Section Pattern.
Import Regex.

(** The strings a regular expression denotes. *)
Inductive lang : re → string → Prop :=
| lang_eps : lang Eps EmptyString
| lang_class p c : p c = true → lang (Class p) (String c EmptyString)
| lang_cat r1 r2 s1 s2 :
    lang r1 s1 → lang r2 s2 → lang (Cat r1 r2) (s1 +:+ s2)
| lang_alt_l r1 r2 s : lang r1 s → lang (Alt r1 r2) s
| lang_alt_r r1 r2 s : lang r2 s → lang (Alt r1 r2) s
| lang_star_nil r : lang (Star r) EmptyString
| lang_star_cons r s1 s2 :
    lang r s1 → lang (Star r) s2 → lang (Star r) (s1 +:+ s2).

(** The pattern in the words of the specification: the two characters
    [0x] followed by one or more hexadecimal digits and nothing else. *)
Definition is_hex_digit (c : ascii) : Prop :=
  let n := nat_of_ascii c in
  (48 ≤ n ≤ 57 ∨ 97 ≤ n ≤ 102 ∨ 65 ≤ n ≤ 70)%nat.

Fixpoint all_chars (P : ascii → Prop) (s : string) : Prop :=
  match s with
  | EmptyString => True
  | String c s' => P c ∧ all_chars P s'
  end.

Definition hex_pattern (s : string) : Prop :=
  ∃ ds, s = String "0" (String "x" ds)
        ∧ ds ≠ EmptyString
        ∧ all_chars is_hex_digit ds.

End Pattern.

(** The body test in the words of the specification: the parsed body
    has a field [result] that is a string matching the hex pattern. *)
Definition has_hex_result (data : json) : Prop :=
  ∃ result, optional_field data "result" = Some (JString result)
            ∧ hex_pattern result.

Section Chain.
Import Chains.

(** The outcome of each candidate, in candidate order. *)
Definition probe_outcomes (pf : platform) (net : nat → network)
           (urls : list value) : list (option rpcInfo) :=
  imap (λ idx u, (Prober.probe pf (net idx) u).2) urls.

(** The body of the loop once the chain is neither ignored nor
    skipped. *)
Definition check_chain (pf : platform) (a : Args.args)
           (net : nat → network) (sched : list nat)
           (st : run) (c : chain) : result run :=
  let name := coalesce (name c) (Str "unknown") in
  let filePath := chain_file (Args.outDir a) (chainId c) in
  let urls := getRpcs c in
  if bool_decide (length urls = 0) then
    Ok (persist filePath pf (Payload name (chainId c) []) st)
  else
    match collect urls 0 (Some <$> probe_outcomes pf net urls) []
                  (totalRpcChecked (counters st)) (totalWorking (counters st)) with
    | Crash e => Crash e
    | Ok (rpcs, checked, working) =>
        Ok (persist filePath pf (Payload name (chainId c) rpcs)
              {| fs := fs st;
                 merged := merged st;
                 calls := calls st
                          ++ task_calls pf net urls (seq 0 (length urls));
                 counters := {| totalRpcChecked := checked;
                                totalWorking := working;
                                skipped := skipped (counters st);
                                written := written (counters st) |} |})
    end.

End Chain.

End Spec.

(** ** Inputs to run the program on *)

Module Samples.
Import Js Model Scheduler Chains.

(** Two tasks that wait for the network, and a task that fails. *)
Definition slow (n : nat) : task nat string := Async (Fulfilled n).
Definition failing (msg : string) : task nat string := Async (Rejected msg).

(** A platform and two networks to run the prober on. *)
Definition sample_platform : platform :=
  {| URL_hostname :=
       λ s, if String.prefix "https://" s then Some "rpc.example" else None;
     JSON_parse := λ s, if decide (s = "") then None else Some (JString s);
     JSON_stringify := λ p, to_String (p_chainId p) |}.

Definition healthy : network :=
  {| http_get := λ _, Response 120 None;
     http_post := λ _, Response 250 (Some (JObject [("result", JString "0x1a2b")]));
     dns_aaaa := λ _, DnsAnswer 30 ["2001:db8::1"] |}.

Definition dead : network :=
  {| http_get := λ _, Unreachable;
     http_post := λ _, Unreachable;
     dns_aaaa := λ _, DnsFailure |}.

(** A run to try the loop on: chain 1 with three candidates, the first
    of which is unreachable. *)
Definition fresh_run : run :=
  {| fs := ∅; merged := ∅; calls := [];
     counters := {| totalRpcChecked := 0; totalWorking := 0;
                    skipped := 0; written := 0 |} |}.

Definition chain_abc : chain :=
  {| name := Str "Test";
     chainId := Num 1;
     rpc := Some [EntryString "https://a";
                  EntryObject (Str "https://b");
                  EntryString "https://c"] |}.

Definition first_dead (idx : nat) : network :=
  if decide (idx = 0%nat) then dead else healthy.

Definition plain_argv : list string := ["node"; "index.js"].
Definition skip_argv : list string := ["node"; "index.js"; "--skip-existing"].

(** A run that finds the file of chain 1 on disk. *)
Definition cached_run : run :=
  {| fs := {[ "./rpcs/1.json" := "cached" ]}; merged := ∅; calls := [];
     counters := {| totalRpcChecked := 0; totalWorking := 0;
                    skipped := 0; written := 0 |} |}.

(** A chain whose only endpoint entry is an object without a [url]
    property. *)
Definition chain_no_url : chain :=
  {| name := Str "Broken"; chainId := Num 5; rpc := Some [EntryObject Undefined] |}.

End Samples.

(** ** Further notions, for the properties beyond the specification *)

Module Notions.
Import Js Model Chains.

(** The number of an item [(pad, n, pad')], and white space that holds
    no separator of index.js:20. *)
Definition number (item : string * Z * string) : Z := item.1.2.

Definition spaces (pad : string) : Prop :=
  Spec.all_chars (λ c, Args.is_space c = true) pad.

Definition blanks (pad : string) : Prop :=
  Spec.all_chars (λ c, Args.is_space c = true ∧ Selection.is_sep c = false) pad.

(** A non-empty run of separators. *)
Definition separators (sep : string) : Prop :=
  sep ≠ EmptyString ∧ Spec.all_chars (λ c, Selection.is_sep c = true) sep.

(** A text that does not start with a separator. *)
Definition no_lead (s : string) : Prop :=
  match s with
  | EmptyString => True
  | String c _ => Selection.is_sep c = false
  end.

(** The part of a string before its first [=] sign. *)
Fixpoint before_eq (s : string) : string :=
  match s with
  | EmptyString => EmptyString
  | String c s' =>
      if decide (c = "="%char) then EmptyString else String c (before_eq s')
  end.

(** A chain the loop does not pass over: its id is neither [undefined],
    nor [null], nor the empty string. *)
Definition handled (c : chain) : bool :=
  negb (nullish (chainId c) || bool_decide (chainId c = Str "")).

(** The key of a chain in [merged], and the keys of the chains of a list
    that the loop does not pass over. *)
Definition key (c : chain) : string := to_String (chainId c).

Definition keys (chains : list chain) : gset string :=
  list_to_set (key <$> filter (λ c, handled c = true) chains).

(** The texts of a list, each followed by [sep]. *)
Definition join_after (items : list (string * string)) : string :=
  foldr (λ item rest, item.1 +:+ item.2 +:+ rest) EmptyString items.

(** The texts of a list with [sep] between them. *)
Fixpoint join_with (sep : string) (items : list string) : string :=
  match items with
  | [] => EmptyString
  | [item] => item
  | item :: rest => item +:+ sep +:+ join_with sep rest
  end.

(** An integer in decimal, with white space around it. *)
Definition padded (item : string * Z * string) : string :=
  item.1.1 +:+ pretty item.1.2 +:+ item.2.

(** A text at whose start [parseInt] stops reading digits: it is empty
    or starts with a character that is no digit. *)
Definition stops (junk : string) : Prop :=
  match junk with
  | EmptyString => True
  | String c _ => Args.digit c = None
  end.

(** The URLs fetched with [GET] among a list of calls. *)
Definition gets (cs : list call) : list string :=
  omap (λ c, match c with Get u => Some u | _ => None end) cs.

(** A chain all of whose candidates are there: no [undefined], no
    [null]. *)
Definition defined_urls (c : chain) : Prop :=
  Forall (λ u, nullish u = false) (getRpcs c).

End Notions.

(** ** Further inputs *)

Module Inputs.
Import Js Model Chains Notions.

(** A chains file of three lines, the second ended by a carriage return
    and a line feed, the third by a comma and a line feed. *)
Definition chains_txt : list ((string * Z * string) * string) :=
  [ (("", 1, ""), String "010" EmptyString);
    (("", 137, String "013" EmptyString), String "010" EmptyString);
    ((" ", 56, ""), String "," (String "010" EmptyString)) ].

Definition disk_with_chains : gmap string string :=
  {[ "/app/chains.txt" := join_after ((λ l, (padded l.1, l.2)) <$> chains_txt) ]}.

Definition file_argv : list string :=
  ["node"; "index.js"; "--chains-file=chains.txt"; "--chains=5"].

(** A chain without an [rpc] property and without a name, and a chain
    without an id. *)
Definition chain_bare : chain :=
  {| name := Undefined; chainId := Num 9; rpc := None |}.

Definition chain_no_id : chain :=
  {| name := Str "Nameless"; chainId := Undefined;
     rpc := Some [EntryString "https://z"] |}.

(** A network that answers every [POST] at once with a given body, and
    has no AAAA record for any host. *)
Definition answering (body : option json) : network :=
  {| http_get := λ _, Response 120 None;
     http_post := λ _, Response 250 body;
     dns_aaaa := λ _, DnsFailure |}.

(** A directory of three chains, and a command line that asks for the
    chains 1 and 56. *)
Definition directory : list chain :=
  [Samples.chain_abc; chain_no_id; chain_bare].

Definition chains_argv : list string := ["node"; "index.js"; "--chains=1,56"].

End Inputs.

(* ===================================================================== *)
(** * Part III: theorems                                                  *)
(* ===================================================================== *)

(** ** The scheduler *)

Module SchedulerFacts.
Import Scheduler Spec Samples.

Section Facts.
Context {V E : Type}.
Implicit Types (tasks : list (task V E)) (st : closure V E).
Implicit Types (rs : list (option (promise V E))) (order sched : list nat).

Local Open Scope nat_scope.

Lemma array_set_end {A} (a : list (option A)) (k : nat) (x : A) :
  length a = k → array_set a k x = a ++ [Some x].
Proof.
  intros <-. unfold array_set. case_decide; [lia |].
  by rewrite Nat.sub_diag.
Qed.

Lemma claimed_up_to_length tasks k :
  k ≤ length tasks → length (results (claimed_up_to tasks k)) = k.
Proof. intros Hk. simpl. rewrite length_imap, length_take. lia. Qed.

Lemma claim_next tasks k :
  k < length tasks →
  claim tasks (claimed_up_to tasks k) = claimed_up_to tasks (S k).
Proof.
  intros Hk. destruct (lookup_lt_is_Some_2 tasks k Hk) as [t Ht].
  unfold claim. cbn [index claimed_up_to]. rewrite Ht.
  unfold claimed_up_to. f_equal.
  - cbn [results].
    rewrite (take_S_r _ _ _ Ht), imap_app. cbn [imap].
    rewrite length_take, Nat.min_l, Nat.add_0_r by lia.
    apply array_set_end. rewrite length_imap, length_take. lia.
  - cbn [trace]. by rewrite seq_S, fmap_app.
Qed.

(** The two cases of the loop guard. *)
Lemma worker_step tasks st :
  index st < length tasks → worker tasks st = worker tasks (claim tasks st).
Proof.
  intros Hlt. rewrite worker_equation_1.
  destruct (decide (index st < length tasks)) as [l|n]; [| lia].
  apply worker_clause_1_equation_1.
Qed.

(** A worker that finds the list exhausted does nothing. *)
Lemma worker_exhausted tasks st :
  length tasks ≤ index st → worker tasks st = st.
Proof.
  intros Hge. rewrite worker_equation_1.
  destruct (decide (index st < length tasks)) as [l|n]; [lia |].
  apply worker_clause_1_equation_2.
Qed.

(** One worker drains the list: it claims every task that is left. *)
Lemma worker_drains tasks k :
  k ≤ length tasks →
  worker tasks (claimed_up_to tasks k) = claimed_up_to tasks (length tasks).
Proof.
  intros Hk. remember (length tasks - k) as d eqn:Hd.
  revert k Hk Hd. induction d as [|d IH]; intros k Hk Hd.
  - assert (k = length tasks) as -> by lia.
    by apply worker_exhausted.
  - rewrite worker_step by (simpl; lia).
    rewrite claim_next by lia. apply IH; lia.
Qed.

Lemma iter_worker_drained tasks n :
  Nat.iter n (worker tasks) (claimed_up_to tasks (length tasks))
  = claimed_up_to tasks (length tasks).
Proof.
  induction n as [|n IH]; [done |].
  rewrite Nat.iter_succ, IH. by apply worker_exhausted.
Qed.

(** With at least one worker every task is claimed before [spawn]
    returns, whatever the concurrency asked for. *)
Lemma spawn_claims_all tasks (concurrency : Z) :
  (1 ≤ concurrency)%Z →
  spawn tasks concurrency = claimed_up_to tasks (length tasks).
Proof.
  intros HC. unfold spawn, workers.
  destruct tasks as [|t tasks']; [by rewrite Z.min_r by (simpl; lia) |].
  set (tasks := t :: tasks').
  assert (∃ n, Z.to_nat (Z.min concurrency (Z.of_nat (length tasks))) = S n)
    as [n ->].
  { exists (Nat.pred (Z.to_nat (Z.min concurrency (Z.of_nat (length tasks))))).
    unfold tasks. simpl length. lia. }
  rewrite Nat.iter_succ_r.
  change {| index := 0; results := []; trace := [] |}
    with (claimed_up_to tasks 0).
  rewrite worker_drains by lia. apply iter_worker_drained.
Qed.

(** Without a worker nothing is claimed. *)
Lemma spawn_no_worker tasks (concurrency : Z) :
  (concurrency ≤ 0)%Z →
  spawn tasks concurrency = {| index := 0; results := []; trace := [] |}.
Proof.
  intros HC. unfold spawn, workers.
  by replace (Z.to_nat _) with 0 by lia.
Qed.

Lemma results_all tasks :
  results (claimed_up_to tasks (length tasks))
  = imap (λ i t, Some (Promise i (settles_to t))) tasks.
Proof. simpl. by rewrite firstn_all. Qed.

Lemma promised_imap tasks (k : nat) :
  promised (imap (λ i t, Some (Promise (k + i) (settles_to t))) tasks)
  = seq k (length tasks).
Proof.
  revert k. induction tasks as [|t tasks IH]; intros k; [done |].
  cbn. rewrite Nat.add_0_r. f_equal.
  rewrite <- (IH (S k)). unfold promised. f_equal.
  apply imap_ext. intros i x _. simpl. do 3 f_equal. lia.
Qed.

Lemma promised_all tasks :
  promised (results (claimed_up_to tasks (length tasks))) = seq 0 (length tasks).
Proof. rewrite results_all. apply (promised_imap tasks 0). Qed.

Lemma claimed_starts (l l' : list nat) :
  claimed ((Start <$> l) ++ (Settle <$> l')) = l.
Proof.
  unfold claimed. rewrite omap_app.
  assert (omap (λ ev : event, match ev with Start i => Some i | Settle _ => None end)
            (Settle <$> l') = []) as ->.
  { induction l' as [|x l' IH]; [done | by cbn]. }
  rewrite app_nil_r. induction l as [|x l IH]; [done |].
  cbn. by f_equal.
Qed.

Lemma running_after_starts (l acc : list nat) :
  running_after (Start <$> l) acc = acc ++ l.
Proof.
  revert acc. induction l as [|x l IH]; intros acc; simpl.
  - by rewrite app_nil_r.
  - rewrite IH. by rewrite <- app_assoc.
Qed.

(** Every promise in flight is settled by the event loop, whatever the
    schedule says. *)
Lemma settle_order_elem (running sched : list nat) (i : nat) :
  i ∈ running → i ∈ settle_order running sched.
Proof.
  revert running. induction sched as [|j sched IH]; intros running Hi; [done |].
  simpl. case_decide.
  - destruct (decide (i = j)) as [->|Hne]; [apply list_elem_of_here |].
    apply list_elem_of_further, IH, list_elem_of_filter. done.
  - by apply IH.
Qed.

Lemma settle_order_sub (running sched : list nat) (i : nat) :
  i ∈ settle_order running sched → i ∈ running.
Proof.
  revert running. induction sched as [|j sched IH]; intros running; [done |].
  simpl. case_decide.
  - intros [->|Hi]%elem_of_cons; [done |].
    apply IH in Hi. by apply list_elem_of_filter in Hi as [_ ?].
  - apply IH.
Qed.

Lemma settle_order_NoDup (running sched : list nat) :
  NoDup running → NoDup (settle_order running sched).
Proof.
  revert running. induction sched as [|j sched IH]; intros running Hnd; [done |].
  simpl. case_decide; [| by apply IH].
  apply NoDup_cons. split.
  - intros Hj%settle_order_sub. apply list_elem_of_filter in Hj as [Hj _]. done.
  - by apply IH, NoDup_filter.
Qed.

(** Each promise in flight settles exactly once. *)
Lemma settle_order_perm (running sched : list nat) :
  NoDup running → settle_order running sched ≡ₚ running.
Proof.
  intros Hnd. apply NoDup_Permutation; [by apply settle_order_NoDup | done |].
  intros i. split; [apply settle_order_sub | apply settle_order_elem].
Qed.

Lemma rejection_imap tasks (i : nat) :
  rejection (imap (λ i t, Some (Promise i (settles_to t))) tasks) i
  = match tasks !! i with
    | Some (Async (Rejected e)) => Some e
    | _ => None
    end.
Proof.
  unfold rejection. rewrite list_lookup_imap.
  destruct (tasks !! i) as [[[v|e]]|]; done.
Qed.

Lemma first_rejection_None rs order :
  (∀ i, i ∈ order → rejection rs i = None) → first_rejection rs order = None.
Proof.
  induction order as [|i order IH]; intros H; [done |].
  simpl. rewrite (H i) by apply list_elem_of_here.
  apply IH. intros j Hj. by apply H, list_elem_of_further.
Qed.

Lemma first_rejection_Some rs order (i : nat) (e : E) :
  i ∈ order → rejection rs i = Some e →
  ∃ j e', j ∈ order ∧ rejection rs j = Some e' ∧ first_rejection rs order = Some e'.
Proof.
  induction order as [|k order IH]; intros Hi Hr; [by apply elem_of_nil in Hi |].
  simpl. destruct (rejection rs k) as [e'|] eqn:Hk.
  - exists k, e'. split_and!; [apply list_elem_of_here | done | done].
  - apply elem_of_cons in Hi as [->|Hi]; [congruence |].
    destruct (IH Hi Hr) as (j & e' & Hj & Hrj & Hf).
    exists j, e'. split_and!; [by apply list_elem_of_further | done | done].
Qed.

Lemma collected_imap tasks :
  collected <$> imap (λ i t, Some (Promise i (settles_to t))) tasks
  = (λ t, match settles_to t with Fulfilled v => Some v | Rejected _ => None end)
      <$> tasks.
Proof.
  rewrite fmap_imap, <- imap_const. apply imap_ext.
  by intros i [[v|e]] _.
Qed.

(** The trace of a call with at least one worker: every task is called,
    in index order, before the first promise settles. *)
Lemma batchCall_trace_shape tasks (concurrency : Z) sched :
  (1 ≤ concurrency)%Z →
  batchCall_trace tasks concurrency sched
  = (Start <$> seq 0 (length tasks))
      ++ (Settle <$> settle_order (seq 0 (length tasks)) sched).
Proof.
  intros HC. unfold batchCall_trace.
  rewrite spawn_claims_all by done. by rewrite promised_all.
Qed.

Lemma batchCall_claims_each_once tasks (concurrency : Z) sched :
  (1 ≤ concurrency)%Z →
  claimed (batchCall_trace tasks concurrency sched) = seq 0 (length tasks).
Proof.
  intros HC. rewrite batchCall_trace_shape by done. apply claimed_starts.
Qed.

(** When no task is rejected the result list is returned, aligned with
    the task list. *)
Lemma batchCall_fulfilled tasks (concurrency : Z) sched :
  (1 ≤ concurrency)%Z →
  Forall (λ t, ∃ v, settles_to t = Fulfilled v) tasks →
  batchCall tasks concurrency sched = Returns (value_of <$> tasks).
Proof.
  intros HC Hall. unfold batchCall, promise_all.
  rewrite spawn_claims_all, results_all by done.
  rewrite first_rejection_None.
  - by rewrite collected_imap.
  - intros i _. rewrite rejection_imap.
    destruct (tasks !! i) as [[[v|e]]|] eqn:Hi; try done.
    apply (Forall_lookup_1 _ _ _ _ Hall) in Hi as [v Hv]. done.
Qed.

(** When some task is rejected, so is the call, with the reason of a
    rejected task. *)
Lemma batchCall_rejected tasks (concurrency : Z) sched (i : nat) (e : E) :
  (1 ≤ concurrency)%Z →
  tasks !! i = Some (Async (Rejected e)) →
  ∃ j e', tasks !! j = Some (Async (Rejected e'))
          ∧ batchCall tasks concurrency sched = Throws e'.
Proof.
  intros HC Hi. unfold batchCall, promise_all.
  rewrite spawn_claims_all, promised_all, results_all by done.
  destruct (first_rejection_Some
              (imap (λ i t, Some (Promise i (settles_to t))) tasks)
              (settle_order (seq 0 (length tasks)) sched) i e)
    as (j & e' & _ & Hj & ->).
  - apply settle_order_elem, elem_of_seq.
    apply lookup_lt_Some in Hi. lia.
  - by rewrite rejection_imap, Hi.
  - exists j, e'. split; [| done].
    rewrite rejection_imap in Hj.
    destruct (tasks !! j) as [[[v|e'']]|]; congruence.
Qed.

(** C1 (as the code behaves): with at least one worker there is an
    instant of the run, the one at which [spawn] has returned, at which
    every one of the N tasks is in flight; for a concurrency limit
    C < N that is more than C tasks executing at once. *)
Theorem batchCall_all_in_flight tasks (concurrency : Z) sched :
  (1 ≤ concurrency < Z.of_nat (length tasks))%Z →
  ∃ instant,
    instant `prefix_of` batchCall_trace tasks concurrency sched
    ∧ in_flight instant = length tasks
    ∧ (concurrency < Z.of_nat (in_flight instant))%Z.
Proof.
  intros [HC HN]. exists (Start <$> seq 0 (length tasks)).
  assert (in_flight (Start <$> seq 0 (length tasks)) = length tasks) as Hin.
  { unfold in_flight. rewrite running_after_starts. simpl.
    by rewrite length_seq. }
  split_and!.
  - rewrite batchCall_trace_shape by done. by apply prefix_app_r.
  - done.
  - by rewrite Hin.
Qed.

(** C2 (amended): for every list of N tasks none of which is rejected
    and every concurrency limit C >= 1, whatever the order in which the
    tasks complete, [batchCall] returns a list of exactly N results in
    which result[i] is the value of task[i], and every task is claimed
    exactly once, in index order. *)
Theorem batchCall_aligned tasks (concurrency : Z) sched :
  (1 ≤ concurrency)%Z →
  Forall (λ t, ∃ v, settles_to t = Fulfilled v) tasks →
  ∃ outcomes,
    batchCall tasks concurrency sched = Returns outcomes
    ∧ length outcomes = length tasks
    ∧ (∀ i v, tasks !! i = Some (Async (Fulfilled v)) →
              outcomes !! i = Some (Some v))
    ∧ claimed (batchCall_trace tasks concurrency sched)
      = seq 0 (length tasks).
Proof.
  intros HC Hall. exists (value_of <$> tasks). split_and!.
  - by apply batchCall_fulfilled.
  - by rewrite length_fmap.
  - intros i v Hi. by rewrite list_lookup_fmap, Hi.
  - by apply batchCall_claims_each_once.
Qed.

(** C3 (amended): for every task list containing some task that is
    rejected and every concurrency limit C >= 1, the promise returned
    by [batchCall] is rejected with the reason of a rejected task, so
    no result list is returned; the other tasks are not aborted, every
    task has been called exactly once. *)
Theorem batchCall_propagates tasks (concurrency : Z) sched (i : nat) (e : E) :
  (1 ≤ concurrency)%Z →
  tasks !! i = Some (Async (Rejected e)) →
  (∃ j e', tasks !! j = Some (Async (Rejected e'))
           ∧ batchCall tasks concurrency sched = Throws e')
  ∧ claimed (batchCall_trace tasks concurrency sched) = seq 0 (length tasks).
Proof.
  intros HC Hi. split.
  - by apply (batchCall_rejected tasks concurrency sched i e).
  - by apply batchCall_claims_each_once.
Qed.

End Facts.

Local Open Scope nat_scope.

Lemma batchCall_all_in_flight_witness :
  ∃ instant,
    instant `prefix_of` batchCall_trace [slow 1; slow 2] 1 []
    ∧ in_flight instant = 2
    ∧ (1 < Z.of_nat (in_flight instant))%Z.
Proof. apply (batchCall_all_in_flight [slow 1; slow 2] 1 []). simpl. lia. Defined.

(** Two tasks under a limit of one: after the synchronous part of the
    call both are in flight. *)
Example batchCall_two_under_limit_one :
  [Start 0; Start 1] `prefix_of` batchCall_trace [slow 1; slow 2] 1 []
  ∧ in_flight [Start 0; Start 1] = 2.
Proof. split; [by exists [Settle 0; Settle 1] | done]. Qed.

Lemma batchCall_aligned_witness :
  ∃ outcomes,
    batchCall [slow 7; slow 8; slow 9] 2 [2; 0] = Returns outcomes
    ∧ length outcomes = 3
    ∧ (∀ i v, [slow 7; slow 8; slow 9] !! i = Some (Async (Fulfilled v)) →
              outcomes !! i = Some (Some v))
    ∧ claimed (batchCall_trace [slow 7; slow 8; slow 9] 2 [2; 0]) = [0; 1; 2].
Proof.
  apply (batchCall_aligned [slow 7; slow 8; slow 9] 2 [2; 0]).
  - lia.
  - repeat constructor; by eexists.
Defined.

(** C2 fails as stated: a list of two tasks, the second of which is
    rejected, yields no result list. *)
Lemma batchCall_aligned_counterexample :
  batchCall [slow 7; failing "boom"] 1 [] = Throws "boom"
  ∧ ¬ ∃ outcomes, batchCall [slow 7; failing "boom"] 1 [] = Returns outcomes.
Proof. split; [done |]. intros [outcomes H]. vm_compute in H. discriminate. Qed.

Lemma batchCall_propagates_witness :
  (∃ j e', [slow 7; failing "boom"; slow 9] !! j = Some (Async (Rejected e'))
           ∧ batchCall [slow 7; failing "boom"; slow 9] 2 [2] = Throws e')
  ∧ claimed (batchCall_trace [slow 7; failing "boom"; slow 9] 2 [2]) = [0; 1; 2].
Proof.
  apply (batchCall_propagates [slow 7; failing "boom"; slow 9] 2 [2] 1 "boom").
  - lia.
  - reflexivity.
Defined.

(** C3 fails as stated: the failure of the task in the middle is not
    turned into a sentinel at position 1; the call is rejected with the
    task's reason and no list comes back. *)
Lemma batchCall_propagates_counterexample :
  batchCall [slow 7; failing "boom"; slow 9] 2 [2] = Throws "boom"
  ∧ batchCall [slow 7; failing "boom"; slow 9] 2 [2]
    ≠ Returns [Some 7; None; Some 9].
Proof. split; [done | discriminate]. Qed.

Example batchCall_out_of_order :
  batchCall [slow 7; slow 8] 1 [1] = Returns [Some 7; Some 8]
  ∧ batchCall_trace [slow 7; slow 8] 1 [1] = [Start 0; Start 1; Settle 1; Settle 0].
Proof. split; reflexivity. Qed.

Example batchCall_no_worker : batchCall [slow 7; slow 8] 0 [] = Returns [].
Proof. reflexivity. Qed.

End SchedulerFacts.

(** ** Command line *)

Module ArgsFacts.
Import Args.

Lemma clamp_batch_range (b : option Z) : 1 ≤ clamp_batch b ≤ 128.
Proof.
  unfold clamp_batch, BATCH_SIZE. destruct b as [b|]; [| lia].
  case_bool_decide; lia.
Qed.

(** *** [parseInt] reads back what the decimal printer writes *)

Lemma digit_pretty_char (d : N) :
  (d < 10)%N → digit (pretty_N_char d) = Some (Z.of_N d).
Proof.
  intros Hd.
  assert (d = 0 ∨ d = 1 ∨ d = 2 ∨ d = 3 ∨ d = 4 ∨ d = 5 ∨ d = 6 ∨ d = 7
          ∨ d = 8 ∨ d = 9)%N as Hcases by lia.
  repeat (destruct Hcases as [->|Hcases]; [reflexivity |]).
  by subst.
Qed.

Lemma digits_pretty_N_go (x : N) (s : string) :
  (0 < x)%N → digits (pretty_N_go x s) None = digits s (Some (Z.of_N x)).
Proof.
  revert s. induction (N.lt_wf_0 x) as [x _ IH]; intros s Hx.
  rewrite pretty_N_go_step by done.
  assert (x `mod` 10 < 10)%N as Hmod by (apply N.mod_lt; lia).
  pose proof (N.div_mod x 10 ltac:(lia)) as Hdm.
  destruct (decide (x `div` 10 = 0)%N) as [Hz|Hnz].
  - rewrite Hz, pretty_N_go_0. cbn [digits].
    rewrite digit_pretty_char by done. cbn [default]. do 2 f_equal.
    rewrite Hz in Hdm. generalize dependent (x `mod` 10)%N. intros r ? ?. lia.
  - rewrite IH; [| apply N.div_lt; lia | lia]. cbn [digits].
    rewrite digit_pretty_char by done. cbn [default]. do 2 f_equal.
    generalize dependent (x `mod` 10)%N. intros r.
    generalize dependent (x `div` 10)%N. intros q. intros. unfold id. lia.
Qed.

(** A numeral starts with a digit. *)
Lemma pretty_N_go_head (x : N) (s : string) :
  (0 < x)%N → ∃ c d rest, pretty_N_go x s = String c rest ∧ digit c = Some d.
Proof.
  revert s. induction (N.lt_wf_0 x) as [x _ IH]; intros s Hx.
  rewrite pretty_N_go_step by done.
  assert (x `mod` 10 < 10)%N as Hmod by (apply N.mod_lt; lia).
  destruct (decide (x `div` 10 = 0)%N) as [Hz|Hnz].
  - rewrite Hz, pretty_N_go_0. eexists _, _, _. split; [done |].
    by apply digit_pretty_char.
  - apply IH; [apply N.div_lt; lia | by apply N.neq_0_lt_0].
Qed.

Lemma digit_code (c : ascii) (d : Z) :
  digit c = Some d → (48 ≤ nat_of_ascii c ≤ 57)%nat.
Proof. unfold digit. case_bool_decide; [lia | done]. Qed.

Lemma parseInt_digit_head (c : ascii) (d : Z) (rest : string) :
  digit c = Some d → parseInt (String c rest) = digits (String c rest) None.
Proof.
  intros Hd%digit_code. unfold parseInt. cbn [skip_spaces].
  assert (is_space c = false) as ->.
  { unfold is_space. apply bool_decide_false. lia. }
  destruct c as [[] [] [] [] [] [] [] []]; try reflexivity;
    vm_compute in Hd; lia.
Qed.

Lemma parseInt_pretty_N (x : N) :
  (0 < x)%N → parseInt (pretty_N_go x EmptyString) = Some (Z.of_N x).
Proof.
  intros Hx. destruct (pretty_N_go_head x EmptyString Hx) as (c & d & rest & Heq & Hd).
  rewrite Heq, (parseInt_digit_head c d rest Hd), <- Heq.
  by rewrite digits_pretty_N_go.
Qed.

(** [parseInt(String(n), 10)] is [n], for every integer [n]. *)
Lemma parseInt_pretty (n : Z) : parseInt (pretty n) = Some n.
Proof.
  destruct n as [|p|p].
  - reflexivity.
  - change (pretty (Z.pos p)) with (pretty (N.pos p)).
    unfold pretty, pretty_N. rewrite decide_False by done.
    by rewrite parseInt_pretty_N.
  - change (pretty (Z.neg p)) with (String "-" (pretty (N.pos p))).
    unfold pretty, pretty_N. rewrite decide_False by done.
    unfold parseInt. cbn [skip_spaces].
    change (is_space "-") with false. cbn match.
    by rewrite digits_pretty_N_go.
Qed.

(** A numeral holds no [=] sign. *)
Lemma pretty_N_go_no_eq (x : N) (s : string) :
  Spec.all_chars (λ c, c ≠ "="%char) s →
  Spec.all_chars (λ c, c ≠ "="%char) (pretty_N_go x s).
Proof.
  revert s. induction (N.lt_wf_0 x) as [x _ IH]; intros s Hs.
  destruct (decide (x = 0)%N) as [->|Hx]; [by rewrite pretty_N_go_0 |].
  rewrite pretty_N_go_step by lia. apply IH; [apply N.div_lt; lia |].
  split; [| done]. unfold pretty_N_char. by repeat case_match.
Qed.

Lemma pretty_no_eq (n : Z) : Spec.all_chars (λ c, c ≠ "="%char) (pretty n).
Proof.
  destruct n as [|p|p].
  - by cbn.
  - change (pretty (Z.pos p)) with (pretty (N.pos p)).
    unfold pretty, pretty_N. rewrite decide_False by done.
    by apply pretty_N_go_no_eq.
  - change (pretty (Z.neg p)) with (String "-" (pretty (N.pos p))).
    split; [done |].
    unfold pretty, pretty_N. rewrite decide_False by done.
    by apply pretty_N_go_no_eq.
Qed.

Lemma split_eq_whole (s : string) :
  Spec.all_chars (λ c, c ≠ "="%char) s → split_eq s = [s].
Proof.
  induction s as [|c s IH]; [done |]. intros [Hc Hs].
  cbn [split_eq]. rewrite decide_False by done. by rewrite IH.
Qed.

(** The value [parseArgs] reads from [--batch=n]. *)
Lemma batch_value (n : Z) :
  split_eq ("--batch=" +:+ pretty n) !! 1%nat = Some (pretty n).
Proof.
  change (split_eq ("--batch=" +:+ pretty n))
    with ("--batch" :: split_eq (pretty n)).
  by rewrite split_eq_whole by apply pretty_no_eq.
Qed.

(** C10 (amended): for every command line the effective concurrency
    lies in [1,128]; it is 16 when the [--batch=] argument is absent,
    when its value is unparseable, and when its value is a number below
    1; a number from 1 on is cut down to at most 128.  In particular
    [--batch=n], with [n] any integer in decimal, gives 16 for [n < 1]
    and [min n 128] otherwise. *)
Theorem batchSize_effective (argv : list string) :
  1 ≤ batchSize (parseArgs argv) ≤ 128
  ∧ (find_arg "--batch=" argv = None → batchSize (parseArgs argv) = 16)
  ∧ (∀ batchArg v,
       find_arg "--batch=" argv = Some batchArg →
       split_eq batchArg !! 1%nat = Some v →
       (parseInt v = None → batchSize (parseArgs argv) = 16)
       ∧ (∀ b, parseInt v = Some b →
               batchSize (parseArgs argv)
               = if bool_decide (b < 1) then 16 else Z.min b 128))
  ∧ (∀ n : Z,
       find_arg "--batch=" argv = Some ("--batch=" +:+ pretty n) →
       batchSize (parseArgs argv)
       = if bool_decide (n < 1) then 16 else Z.min n 128).
Proof.
  cbn [parseArgs batchSize]. split; [| split; [| split]].
  - apply clamp_batch_range.
  - intros Hnone. unfold batch. by rewrite Hnone.
  - intros batchArg v Hfind Hsplit. unfold batch.
    rewrite Hfind, Hsplit. split.
    + by intros ->.
    + by intros b ->.
  - intros n Hfind. unfold batch.
    by rewrite Hfind, batch_value, parseInt_pretty.
Qed.

Lemma batchSize_effective_witness :
  1 ≤ batchSize (parseArgs ["node"; "index.js"; "--batch=300"]) ≤ 128
  ∧ (find_arg "--batch=" ["node"; "index.js"; "--batch=300"] = None →
     batchSize (parseArgs ["node"; "index.js"; "--batch=300"]) = 16)
  ∧ (∀ batchArg v,
       find_arg "--batch=" ["node"; "index.js"; "--batch=300"] = Some batchArg →
       split_eq batchArg !! 1%nat = Some v →
       (parseInt v = None →
        batchSize (parseArgs ["node"; "index.js"; "--batch=300"]) = 16)
       ∧ (∀ b, parseInt v = Some b →
               batchSize (parseArgs ["node"; "index.js"; "--batch=300"])
               = if bool_decide (b < 1) then 16 else Z.min b 128))
  ∧ (∀ n : Z,
       find_arg "--batch=" ["node"; "index.js"; "--batch=300"]
       = Some ("--batch=" +:+ pretty n) →
       batchSize (parseArgs ["node"; "index.js"; "--batch=300"])
       = if bool_decide (n < 1) then 16 else Z.min n 128).
Proof. apply (batchSize_effective ["node"; "index.js"; "--batch=300"]). Defined.

(** C10 fails as stated: the explicit numeric value 0 is not clamped to
    the interval [1,128], which would give 1; the default 16 is used. *)
Lemma batchSize_clamp_counterexample :
  parseInt "0" = Some 0
  ∧ batchSize (parseArgs ["node"; "index.js"; "--batch=0"]) = 16
  ∧ batchSize (parseArgs ["node"; "index.js"; "--batch=0"])
    ≠ Z.max 1 (Z.min 0 128).
Proof. split; [done | split; [done | discriminate]]. Qed.

Example batchSize_absent : batchSize (parseArgs ["node"; "index.js"]) = 16.
Proof. reflexivity. Qed.
Example batchSize_unparseable :
  batchSize (parseArgs ["node"; "index.js"; "--batch=many"]) = 16.
Proof. reflexivity. Qed.
Example batchSize_negative :
  batchSize (parseArgs ["node"; "index.js"; "--batch=-4"]) = 16.
Proof. reflexivity. Qed.
Example batchSize_in_range :
  batchSize (parseArgs ["node"; "index.js"; "--batch=32"]) = 32.
Proof. reflexivity. Qed.
Example batchSize_above :
  batchSize (parseArgs ["node"; "index.js"; "--batch=4096"]) = 128.
Proof. reflexivity. Qed.

Example batchSize_trailing_text :
  batchSize (parseArgs ["node"; "index.js"; "--batch= 7x"]) = 7.
Proof. reflexivity. Qed.
Example parseArgs_all :
  parseArgs ["node"; "index.js"; "--batch=-3"; "--out=a=b"; "--skip-existing"]
  = {| outDir := "a"; skipExisting := true; batchSize := 16 |}.
Proof. reflexivity. Qed.
Example to_String_negative : Js.to_String (Js.Num (-12)) = "-12".
Proof. reflexivity. Qed.

End ArgsFacts.

(** ** The hex pattern *)

Module RegexFacts.
Import Regex Spec.

Lemma append_nil_inv (s1 s2 : string) :
  s1 +:+ s2 = EmptyString → s1 = EmptyString ∧ s2 = EmptyString.
Proof. destruct s1; [done | discriminate]. Qed.

Lemma nullable_lang (r : re) : nullable r = true ↔ lang r EmptyString.
Proof.
  induction r as [| |p|r1 IH1 r2 IH2|r1 IH1 r2 IH2|r IH]; simpl.
  - split; [done | inversion 1].
  - split; [constructor | done].
  - split; [done | inversion 1].
  - rewrite andb_true_iff, IH1, IH2. split.
    + intros [H1 H2]. apply (lang_cat _ _ EmptyString EmptyString); done.
    + inversion 1 as [| |? ? s1 s2 H1 H2 Heq Hs| | | |]; subst.
      apply append_nil_inv in Hs as [-> ->]. done.
  - rewrite orb_true_iff, IH1, IH2. split.
    + intros [H|H]; [by apply lang_alt_l | by apply lang_alt_r].
    + inversion 1; subst; auto.
  - split; [constructor | done].
Qed.

(** A non-empty word of a starred expression starts with a non-empty
    word of the expression. *)
Lemma lang_star_cons_inv (r : re) (c : ascii) (s : string) :
  lang (Star r) (String c s) →
  ∃ s1 s2, s = s1 +:+ s2 ∧ lang r (String c s1) ∧ lang (Star r) s2.
Proof.
  intros H. remember (Star r) as r' eqn:Hr. remember (String c s) as w eqn:Hw.
  revert s Hw. induction H as [| | | | | |r0 s1 s2 H1 _ H2 IH2];
    intros w Hw; try discriminate.
  injection Hr as ->. destruct s1 as [|c1 s1].
  - change (s2 = String c w) in Hw. by apply IH2.
  - change (String c1 (s1 +:+ s2) = String c w) in Hw.
    injection Hw as -> <-. by exists s1, s2.
Qed.

Lemma deriv_lang (r : re) (c : ascii) (s : string) :
  lang (deriv c r) s ↔ lang r (String c s).
Proof.
  revert s. induction r as [| |p|r1 IH1 r2 IH2|r1 IH1 r2 IH2|r IH];
    intros s; simpl.
  - split; inversion 1.
  - split; inversion 1.
  - destruct (p c) eqn:Hp; split.
    + inversion 1; subst. by constructor.
    + inversion 1; subst. constructor.
    + inversion 1.
    + inversion 1; subst. congruence.
  - assert (lang (Cat (deriv c r1) r2) s →
            lang (Cat r1 r2) (String c s)) as Hhead.
    { inversion 1 as [| |? ? s1 s2 H1 H2| | | |]; subst.
      apply IH1 in H1. by apply (lang_cat _ _ (String c s1) s2). }
    assert (lang (Cat r1 r2) (String c s) →
            lang (Cat (deriv c r1) r2) s
            ∨ (lang r1 EmptyString ∧ lang r2 (String c s))) as Hinv.
    { inversion 1 as [| |? ? s1 s2 H1 H2 Heq Hs| | | |]; subst.
      destruct s1 as [|c1 s1].
      - change (s2 = String c s) in Hs. subst s2. by right.
      - change (String c1 (s1 +:+ s2) = String c s) in Hs.
        injection Hs as -> <-. left. apply lang_cat; [by apply IH1 | done]. }
    destruct (nullable r1) eqn:Hn; split.
    + inversion 1; subst; [by apply Hhead |].
      apply (lang_cat _ _ EmptyString (String c s)); [| by apply IH2].
      by apply nullable_lang.
    + intros [H|[_ H]]%Hinv; [by apply lang_alt_l |].
      apply lang_alt_r. by apply IH2.
    + apply Hhead.
    + intros [H|[H _]]%Hinv; [done |].
      apply nullable_lang in H. congruence.
  - split.
    + inversion 1; subst; [apply lang_alt_l | apply lang_alt_r];
        [by apply IH1 | by apply IH2].
    + inversion 1; subst; [apply lang_alt_l | apply lang_alt_r];
        [by apply IH1 | by apply IH2].
  - split.
    + inversion 1 as [| |? ? s1 s2 H1 H2| | | |]; subst.
      apply IH in H1. by apply (lang_star_cons _ (String c s1) s2).
    + intros (s1 & s2 & -> & H1 & H2)%lang_star_cons_inv.
      apply lang_cat; [by apply IH | done].
Qed.

(** The derivative matcher decides the language. *)
Lemma matches_lang (r : re) (s : string) : matches r s = true ↔ lang r s.
Proof.
  revert r. induction s as [|c s IH]; intros r; simpl.
  - apply nullable_lang.
  - rewrite IH. apply deriv_lang.
Qed.

Lemma hex_class_spec (c : ascii) : hex_class c = true ↔ is_hex_digit c.
Proof.
  unfold hex_class, between, is_hex_digit.
  change (nat_of_ascii "0") with 48%nat. change (nat_of_ascii "9") with 57%nat.
  change (nat_of_ascii "a") with 97%nat. change (nat_of_ascii "f") with 102%nat.
  change (nat_of_ascii "A") with 65%nat. change (nat_of_ascii "F") with 70%nat.
  cbn zeta. rewrite !orb_true_iff, !andb_true_iff, !Nat.leb_le. tauto.
Qed.

Lemma lang_lit_inv (c : ascii) (s : string) :
  lang (lit c) s ↔ s = String c EmptyString.
Proof.
  unfold lit. split.
  - inversion 1 as [|? c' Hc| | | | |]; subst.
    apply Ascii.eqb_eq in Hc. by subst.
  - intros ->. constructor. apply Ascii.eqb_refl.
Qed.

Lemma lang_star_class (p : ascii → bool) (s : string) :
  lang (Star (Class p)) s ↔ all_chars (λ c, p c = true) s.
Proof.
  split.
  - intros H. remember (Star (Class p)) as r eqn:Hr.
    induction H as [| | | | | |r0 s1 s2 H1 _ H2 IH2]; try discriminate; [done |].
    injection Hr as ->. inversion H1; subst. split; [done | by apply IH2].
  - induction s as [|c s IH]; [constructor |].
    intros [Hc Hs].
    apply (lang_star_cons _ (String c EmptyString) s); [by constructor | by apply IH].
Qed.

Lemma all_chars_impl (P Q : ascii → Prop) (s : string) :
  (∀ c, P c → Q c) → all_chars P s → all_chars Q s.
Proof. intros HPQ. induction s as [|c s IH]; simpl; [done |]. intros [? ?]; auto. Qed.

Lemma lang_HEX_RESULT (s : string) : lang HEX_RESULT s ↔ hex_pattern s.
Proof.
  unfold HEX_RESULT, plus, hex_pattern. split.
  - inversion 1 as [| |? ? s0 t0 H0 Ht0| | | |]; subst.
    apply lang_lit_inv in H0 as ->.
    inversion Ht0 as [| |? ? s1 t1 H1 Ht1| | | |]; subst.
    apply lang_lit_inv in H1 as ->.
    inversion Ht1 as [| |? ? s2 t2 H2 Ht2| | | |]; subst.
    inversion H2 as [|? c Hc| | | | |]; subst.
    exists (String c t2). split; [done |]. split; [done |]. split.
    + by apply hex_class_spec.
    + apply lang_star_class in Ht2.
      eapply all_chars_impl; [| exact Ht2]. intros c'. apply hex_class_spec.
  - intros (ds & -> & Hne & Hall). destruct ds as [|c ds]; [done |].
    destruct Hall as [Hc Hds].
    apply (lang_cat _ _ (String "0" EmptyString) (String "x" (String c ds)));
      [by apply lang_lit_inv |].
    apply (lang_cat _ _ (String "x" EmptyString) (String c ds));
      [by apply lang_lit_inv |].
    apply (lang_cat _ _ (String c EmptyString) ds).
    + constructor. by apply hex_class_spec.
    + apply lang_star_class.
      eapply all_chars_impl; [| exact Hds]. intros c'. apply hex_class_spec.
Qed.

(** [HEX_RESULT.test] accepts exactly the strings of the pattern. *)
Lemma test_HEX_RESULT (s : string) : test HEX_RESULT s = true ↔ hex_pattern s.
Proof. unfold test. rewrite matches_lang. apply lang_HEX_RESULT. Qed.

Example test_0x1a2b : test HEX_RESULT "0x1a2b" = true.
Proof. reflexivity. Qed.
Example test_1a2b : test HEX_RESULT "1a2b" = false.
Proof. reflexivity. Qed.
Example test_0x : test HEX_RESULT "0x" = false.
Proof. reflexivity. Qed.
Example test_0xG : test HEX_RESULT "0x1g" = false.
Proof. reflexivity. Qed.
Example test_upper : test HEX_RESULT "0xDEADbeef" = true.
Proof. reflexivity. Qed.
Example test_0X : test HEX_RESULT "0X10" = false.
Proof. reflexivity. Qed.

End RegexFacts.

(** ** The endpoint prober *)

Module ProberFacts.
Import Js Model Prober Spec Samples.

(** Unfold the plumbing of [IO]. *)
Ltac io := unfold mbind, IO_bind, mret, IO_ret, issue in *; cbn [fst snd] in *.

Lemma IO_bind_unfold {A B} (m : IO A) (f : A → IO B) :
  (m ≫= f) = (m.1 ++ (f m.2).1, (f m.2).2).
Proof.
  destruct m as [l a]. unfold mbind, IO_bind. cbn [fst snd].
  destruct (f a) as [l' b]. reflexivity.
Qed.

Lemma fetch_Some (pf : platform) (answer : string → http_reply)
      (u : value) (timeout_ms : Z) (res : option json) :
  fetch pf answer u timeout_ms = Some res ↔
  ∃ hostname after_ms,
    URL_hostname pf (to_String u) = Some hostname
    ∧ answer (to_String u) = Response after_ms res
    ∧ after_ms < timeout_ms.
Proof.
  unfold fetch. split.
  - destruct (URL_hostname pf (to_String u)) as [h|]; [| done].
    destruct (answer (to_String u)) as [|after body]; [done |].
    case_bool_decide; [| done]. intros [= ->]. by exists h, after.
  - intros (h & after & -> & -> & Hlt). by rewrite bool_decide_true.
Qed.

Lemma checkConnect_calls pf net u :
  (checkConnect pf net u).1 = [Get (to_String u)].
Proof. unfold checkConnect. io. by destruct (fetch _ _ _ _). Qed.

Lemma checkRpc_calls pf net u :
  (checkRpc pf net u).1 = [Post (to_String u)].
Proof. unfold checkRpc. io. by destruct (fetch _ _ _ _) as [[data|]|]. Qed.

(** Connectivity holds exactly when the URL parses and the network
    answers the request within [CONNECT_TIMEOUT_MS]. *)
Lemma checkConnect_true pf net u :
  (checkConnect pf net u).2 = true ↔
  ∃ res, fetch pf (http_get net) u CONNECT_TIMEOUT_MS = Some res.
Proof.
  unfold checkConnect. io.
  destruct (fetch _ _ _ _) as [res|]; cbn.
  - split; [by exists res | done].
  - split; [done | by intros [? ?]].
Qed.

Lemma checkRpc_value pf net u :
  (checkRpc pf net u).2
  = match fetch pf (http_post net) u RPC_TIMEOUT_MS with
    | Some (Some data) => hex_result data
    | _ => false
    end.
Proof. unfold checkRpc. io. by destruct (fetch _ _ _ _) as [[data|]|]. Qed.

Lemma hex_result_spec (data : json) :
  hex_result data = true ↔ has_hex_result data.
Proof.
  unfold hex_result, has_hex_result.
  destruct (optional_field data "result") as [[| | |result| |]|] eqn:Hf;
    try (split; [done | by intros (? & [=] & _)]).
  rewrite RegexFacts.test_HEX_RESULT. split.
  - intros H. by exists result.
  - by intros (? & [= <-] & H).
Qed.

Lemma checkIpv6_calls net host :
  (checkIpv6 net host).1 = if decide (host = "") then [] else [Resolve host].
Proof.
  unfold checkIpv6. case_decide; [done |]. io.
  by destruct (race_dns net host).
Qed.

Lemma checkIpv6_true net host :
  (checkIpv6 net host).2 = true ↔
  host ≠ ""
  ∧ ∃ after_ms records,
      dns_aaaa net host = DnsAnswer after_ms records
      ∧ after_ms < DNS_TIMEOUT_MS
      ∧ records ≠ [].
Proof.
  unfold checkIpv6, race_dns. case_decide as Hh.
  - split; [done | by intros [? _]].
  - io. destruct (dns_aaaa net host) as [|after records]; cbn.
    + split; [done | by intros (_ & ? & ? & [=] & _)].
    + case_bool_decide as Hlt; cbn.
      * rewrite bool_decide_eq_true. split.
        -- intros Hlen. split; [done |]. exists after, records.
           split; [done |]. split; [done |].
           intros ->. simpl in Hlen. lia.
        -- intros (_ & a & r & Heq & _ & Hne). injection Heq as <- <-.
           destruct records; [done | simpl; lia].
      * split; [done |].
        intros (_ & a & r & Heq & Hlt' & _). injection Heq as <- <-. done.
Qed.

(** The task body, stage by stage. *)
Lemma probe_unfold pf net u :
  probe pf net u =
  if (checkConnect pf net u).2 then
    if (checkRpc pf net u).2 then
      ([Get (to_String u); Post (to_String u)]
         ++ (checkIpv6 net (extractHost pf u)).1,
       Some {| url := u;
               supportsIpv6 := (checkIpv6 net (extractHost pf u)).2 |})
    else ([Get (to_String u); Post (to_String u)], None)
  else ([Get (to_String u)], None).
Proof.
  unfold probe. rewrite IO_bind_unfold, checkConnect_calls.
  destruct ((checkConnect pf net u).2); cbn [negb]; [| done].
  rewrite IO_bind_unfold, checkRpc_calls.
  destruct ((checkRpc pf net u).2); cbn [negb]; [| done].
  rewrite IO_bind_unfold. unfold mret, IO_ret. cbn [fst snd].
  by rewrite app_nil_r.
Qed.

(** C4: the three stages run in sequence and stop at the first
    failure.  If the connectivity check fails, the only call issued is
    the [GET] (no RPC request, no DNS query) and the outcome is [null];
    if the RPC check fails, the calls are the [GET] then the [POST]
    (no DNS query) and the outcome is [null]; if both pass, the IPv6
    stage comes last and the outcome is present whatever that stage
    answers, with [supportsIpv6 = false] when it fails. *)
Theorem probe_short_circuits pf net u :
  ((checkConnect pf net u).2 = false →
     probe pf net u = ([Get (to_String u)], None))
  ∧ ((checkConnect pf net u).2 = true → (checkRpc pf net u).2 = false →
     probe pf net u = ([Get (to_String u); Post (to_String u)], None))
  ∧ ((checkConnect pf net u).2 = true → (checkRpc pf net u).2 = true →
     ∀ dns v6, checkIpv6 net (extractHost pf u) = (dns, v6) →
       probe pf net u
       = ([Get (to_String u); Post (to_String u)] ++ dns,
          Some {| url := u; supportsIpv6 := v6 |})
       ∧ (v6 = false →
          (probe pf net u).2 = Some {| url := u; supportsIpv6 := false |})).
Proof.
  rewrite probe_unfold. split; [| split].
  - by intros ->.
  - by intros -> ->.
  - intros -> -> dns v6 ->. cbn [fst snd]. split; [done |]. by intros ->.
Qed.

Lemma checkRpc_true pf net u :
  (checkRpc pf net u).2 = true ↔
  ∃ hostname after_ms data,
    URL_hostname pf (to_String u) = Some hostname
    ∧ http_post net (to_String u) = Response after_ms (Some data)
    ∧ after_ms < RPC_TIMEOUT_MS
    ∧ has_hex_result data.
Proof.
  rewrite checkRpc_value. split.
  - destruct (fetch pf (http_post net) u RPC_TIMEOUT_MS) as [[data|]|] eqn:Hf;
      try done.
    intros Hhex%hex_result_spec.
    apply fetch_Some in Hf as (h & after & Hh & Hpost & Hlt).
    by exists h, after, data.
  - intros (h & after & data & Hh & Hpost & Hlt & Hhex).
    assert (fetch pf (http_post net) u RPC_TIMEOUT_MS = Some (Some data)) as ->.
    { apply fetch_Some. by exists h, after. }
    by apply hex_result_spec.
Qed.

(** C5: [checkRpc] succeeds if and only if the request is answered (the
    URL parses and the response arrives before [RPC_TIMEOUT_MS]), the
    body of the response parses as JSON and it has a field [result]
    that is a string matching [^0x[0-9a-fA-F]+$].  Hence there is no
    success when the URL does not parse, the network fails or the
    response comes too late; a response with the body
    [{result: "0x1a2b"}] is accepted when it arrives in time, and the
    bodies [{result: "1a2b"}], [{result: 123}] and a body that is not
    JSON are rejected whenever they arrive. *)
Theorem checkRpc_accepts pf net u :
  ((checkRpc pf net u).2 = true ↔
     ∃ hostname after_ms data,
       URL_hostname pf (to_String u) = Some hostname
       ∧ http_post net (to_String u) = Response after_ms (Some data)
       ∧ after_ms < RPC_TIMEOUT_MS
       ∧ has_hex_result data)
  ∧ (URL_hostname pf (to_String u) = None
     ∨ http_post net (to_String u) = Unreachable
     ∨ (∃ after_ms body, http_post net (to_String u) = Response after_ms body
                         ∧ RPC_TIMEOUT_MS ≤ after_ms) →
     (checkRpc pf net u).2 = false)
  ∧ (∀ after_ms body,
       http_post net (to_String u) = Response after_ms body →
       (body = Some (JObject [("result", JString "0x1a2b")]) →
        is_Some (URL_hostname pf (to_String u)) →
        after_ms < RPC_TIMEOUT_MS →
        (checkRpc pf net u).2 = true)
       ∧ (body = Some (JObject [("result", JString "1a2b")]) →
          (checkRpc pf net u).2 = false)
       ∧ (body = Some (JObject [("result", JNumber 123)]) →
          (checkRpc pf net u).2 = false)
       ∧ (body = None → (checkRpc pf net u).2 = false)).
Proof.
  split; [apply checkRpc_true |]. split.
  - intros Hno. rewrite checkRpc_value. unfold fetch.
    destruct Hno as [-> | [Hpost | (after & body & Hpost & Hlate)]]; [done | |].
    + rewrite Hpost. by destruct (URL_hostname pf (to_String u)).
    + rewrite Hpost, bool_decide_false by lia.
      by destruct (URL_hostname pf (to_String u)).
  - intros after body Hpost. rewrite checkRpc_value. unfold fetch. rewrite Hpost.
    split_and!.
    + intros -> [h ->] Hlt. by rewrite bool_decide_true.
    + intros ->. destruct (URL_hostname pf (to_String u)); [| done].
      by case_bool_decide.
    + intros ->. destruct (URL_hostname pf (to_String u)); [| done].
      by case_bool_decide.
    + intros ->. destruct (URL_hostname pf (to_String u)); [| done].
      by case_bool_decide.
Qed.

(** Without a response there is no success either. *)
Lemma checkRpc_no_response pf net u :
  fetch pf (http_post net) u RPC_TIMEOUT_MS = None → (checkRpc pf net u).2 = false.
Proof. intros H. by rewrite checkRpc_value, H. Qed.

(** What passing the first stage tells about the URL: it parses, and
    [extractHost] gives its hostname. *)
Lemma connected_hostname pf net u :
  (checkConnect pf net u).2 = true →
  ∃ h, URL_hostname pf (to_String u) = Some h ∧ extractHost pf u = h.
Proof.
  intros [res (h & after & Hh & _)%fetch_Some]%checkConnect_true.
  exists h. split; [done |]. unfold extractHost. by rewrite Hh.
Qed.

(** C9: a URL that passed the first two stages parses; let [h] be its
    hostname.  The outcome is present, and its flag is [false] when [h]
    is empty (and then no DNS query is issued), when the resolver
    fails, when the answer does not come within 5000 ms, and when the
    answer holds no record; when [h] is not empty the one DNS query is
    for [h]; the flag is [true] exactly when [h] is not empty and the
    lookup of [h] returns, in time, at least one record.  A URL that
    does not parse has the empty host, for which [checkIpv6] fails
    without a query. *)
Theorem supportsIpv6_flag pf net u :
  (URL_hostname pf (to_String u) = None →
   extractHost pf u = ""
   ∧ checkIpv6 net (extractHost pf u) = ([], false))
  ∧ ((checkConnect pf net u).2 = true →
     (checkRpc pf net u).2 = true →
     ∃ h calls v6,
       URL_hostname pf (to_String u) = Some h
       ∧ probe pf net u = (calls, Some {| url := u; supportsIpv6 := v6 |})
       ∧ (h = "" → v6 = false ∧ ∀ h', Resolve h' ∉ calls)
       ∧ (h ≠ "" → calls = [Get (to_String u); Post (to_String u); Resolve h])
       ∧ (dns_aaaa net h = DnsFailure → v6 = false)
       ∧ (∀ after_ms records,
            dns_aaaa net h = DnsAnswer after_ms records →
            DNS_TIMEOUT_MS ≤ after_ms → v6 = false)
       ∧ (∀ after_ms,
            dns_aaaa net h = DnsAnswer after_ms [] →
            v6 = false)
       ∧ (v6 = true ↔
            h ≠ ""
            ∧ ∃ after_ms records,
                dns_aaaa net h = DnsAnswer after_ms records
                ∧ after_ms < DNS_TIMEOUT_MS
                ∧ records ≠ [])).
Proof.
  split.
  - intros Hbad. unfold extractHost. by rewrite Hbad.
  - intros Hc Hr. rewrite probe_unfold, Hc, Hr.
    destruct (connected_hostname pf net u Hc) as (h & Hh & ->).
    exists h. eexists _, _. split; [done |]. split; [reflexivity |].
    rewrite checkIpv6_calls.
    pose proof (checkIpv6_true net h) as Htrue.
    destruct ((checkIpv6 net h).2) eqn:Hv6.
    + destruct (proj1 Htrue eq_refl) as (Hne & after & records & Hdns & Hlt & Hrec).
      split; [done |]. split; [by rewrite decide_False |].
      split; [by rewrite Hdns |]. split; [| split].
      * intros a r. rewrite Hdns. intros [= <- <-]. lia.
      * intros a. rewrite Hdns. intros [= ? ?]. by subst.
      * done.
    + split; [| split; [by intros Hne; rewrite decide_False | done]].
      intros Hempty. split; [done |]. intros h'.
      rewrite decide_True by done.
      intros [Hg|[Hp|Hn%elem_of_nil]%elem_of_cons]%elem_of_cons; done.
Qed.

Lemma probe_short_circuits_witness :
  ((checkConnect sample_platform dead (Str "https://a")).2 = false →
     probe sample_platform dead (Str "https://a") = ([Get "https://a"], None))
  ∧ ((checkConnect sample_platform dead (Str "https://a")).2 = true →
     (checkRpc sample_platform dead (Str "https://a")).2 = false →
     probe sample_platform dead (Str "https://a")
     = ([Get "https://a"; Post "https://a"], None))
  ∧ ((checkConnect sample_platform dead (Str "https://a")).2 = true →
     (checkRpc sample_platform dead (Str "https://a")).2 = true →
     ∀ dns v6,
       checkIpv6 dead (extractHost sample_platform (Str "https://a")) = (dns, v6) →
       probe sample_platform dead (Str "https://a")
       = ([Get "https://a"; Post "https://a"] ++ dns,
          Some {| url := Str "https://a"; supportsIpv6 := v6 |})
       ∧ (v6 = false →
          (probe sample_platform dead (Str "https://a")).2
          = Some {| url := Str "https://a"; supportsIpv6 := false |})).
Proof. apply (probe_short_circuits sample_platform dead (Str "https://a")). Defined.

Lemma checkRpc_accepts_witness :
  (checkRpc sample_platform healthy (Str "https://a")).2 = true
  ∧ (checkRpc sample_platform dead (Str "https://a")).2 = false
  ∧ (checkRpc sample_platform
       (Inputs.answering (Some (JObject [("result", JString "1a2b")])))
       (Str "https://a")).2 = false
  ∧ (checkRpc sample_platform
       (Inputs.answering (Some (JObject [("result", JNumber 123)])))
       (Str "https://a")).2 = false
  ∧ (checkRpc sample_platform (Inputs.answering None) (Str "https://a")).2 = false.
Proof.
  split_and!.
  - destruct (proj2 (proj2 (checkRpc_accepts sample_platform healthy
                              (Str "https://a")))
                250 (Some (JObject [("result", JString "0x1a2b")])) eq_refl)
      as (Haccept & _).
    apply Haccept; [reflexivity | by eexists | reflexivity].
  - apply (proj1 (proj2 (checkRpc_accepts sample_platform dead (Str "https://a")))).
    right. left. reflexivity.
  - destruct (proj2 (proj2 (checkRpc_accepts sample_platform
                              (Inputs.answering
                                 (Some (JObject [("result", JString "1a2b")])))
                              (Str "https://a")))
                250 (Some (JObject [("result", JString "1a2b")])) eq_refl)
      as (_ & Hreject & _).
    apply Hreject. reflexivity.
  - destruct (proj2 (proj2 (checkRpc_accepts sample_platform
                              (Inputs.answering
                                 (Some (JObject [("result", JNumber 123)])))
                              (Str "https://a")))
                250 (Some (JObject [("result", JNumber 123)])) eq_refl)
      as (_ & _ & Hreject & _).
    apply Hreject. reflexivity.
  - destruct (proj2 (proj2 (checkRpc_accepts sample_platform
                              (Inputs.answering None) (Str "https://a")))
                250 None eq_refl)
      as (_ & _ & _ & Hreject).
    apply Hreject. reflexivity.
Defined.

Lemma supportsIpv6_flag_witness :
  ∃ h calls v6,
    URL_hostname sample_platform (to_String (Str "https://a")) = Some h
    ∧ probe sample_platform healthy (Str "https://a")
      = (calls, Some {| url := Str "https://a"; supportsIpv6 := v6 |})
    ∧ (h = "" → v6 = false ∧ ∀ h', Resolve h' ∉ calls)
    ∧ (h ≠ "" →
       calls = [Get (to_String (Str "https://a")); Post (to_String (Str "https://a"));
                Resolve h])
    ∧ (dns_aaaa healthy h = DnsFailure → v6 = false)
    ∧ (∀ after_ms records,
         dns_aaaa healthy h = DnsAnswer after_ms records →
         DNS_TIMEOUT_MS ≤ after_ms → v6 = false)
    ∧ (∀ after_ms,
         dns_aaaa healthy h = DnsAnswer after_ms [] →
         v6 = false)
    ∧ (v6 = true ↔
         h ≠ ""
         ∧ ∃ after_ms records,
             dns_aaaa healthy h = DnsAnswer after_ms records
             ∧ after_ms < DNS_TIMEOUT_MS
             ∧ records ≠ []).
Proof.
  apply (proj2 (supportsIpv6_flag sample_platform healthy (Str "https://a"))).
  - reflexivity.
  - reflexivity.
Defined.

Example probe_healthy :
  probe sample_platform healthy (Str "https://a")
  = ([Get "https://a"; Post "https://a"; Resolve "rpc.example"],
     Some {| url := Str "https://a"; supportsIpv6 := true |}).
Proof. reflexivity. Qed.

Example probe_dead :
  probe sample_platform dead (Str "https://a") = ([Get "https://a"], None).
Proof. reflexivity. Qed.

(** A malformed URL fails the first check without reaching the network
    oracle. *)
Example probe_malformed :
  probe sample_platform healthy (Str "not a url") = ([Get "not a url"], None).
Proof. reflexivity. Qed.

End ProberFacts.

(** ** The chain processor *)

Module ChainsFacts.
Import Js Model Chains Spec Samples.

Local Open Scope nat_scope.

Lemma push_all (l : list entry) (acc : list value) :
  foldl (λ urls e, urls ++ [entry_url e]) acc l = acc ++ (entry_url <$> l).
Proof.
  revert acc. induction l as [|e l IH]; intros acc; simpl.
  - by rewrite app_nil_r.
  - rewrite IH. by rewrite <- app_assoc.
Qed.

Lemma getRpcs_map (c : chain) :
  getRpcs c = entry_url <$> default [] (rpc c).
Proof. unfold getRpcs. apply push_all. Qed.

(** A probe that succeeds reports the URL it was given. *)
Lemma probe_url pf net u r : (Prober.probe pf net u).2 = Some r → url r = u.
Proof.
  rewrite ProberFacts.probe_unfold.
  destruct (Prober.checkConnect pf net u).2; [| done].
  destruct (Prober.checkRpc pf net u).2; [| done].
  by intros [= <-].
Qed.

Lemma taskFns_fulfilled pf net urls :
  Forall (λ t, ∃ v, Scheduler.settles_to t = Scheduler.Fulfilled v)
         (taskFns pf net urls).
Proof.
  apply Forall_lookup_2. intros i t. unfold taskFns.
  rewrite list_lookup_imap. destruct (urls !! i); [| done].
  intros [= <-]. by eexists.
Qed.

Lemma taskFns_values pf net urls :
  Spec.value_of <$> taskFns pf net urls
  = Some <$> probe_outcomes pf net urls.
Proof.
  unfold taskFns, probe_outcomes. rewrite !fmap_imap. by apply imap_ext.
Qed.

(** The tasks of a chain never fail, so the scheduler hands back their
    outcomes in candidate order. *)
Lemma batchCall_taskFns pf net urls (concurrency : Z) sched :
  (1 ≤ concurrency)%Z →
  Scheduler.batchCall (taskFns pf net urls) concurrency sched
  = Scheduler.Returns (Some <$> probe_outcomes pf net urls).
Proof.
  intros HC. rewrite SchedulerFacts.batchCall_fulfilled; [| done |].
  - by rewrite taskFns_values.
  - apply taskFns_fulfilled.
Qed.

Lemma outcome_at_Some (l : list (option rpcInfo)) (i : nat) :
  outcome_at (Some <$> l) i = mjoin (l !! i).
Proof.
  unfold outcome_at. rewrite list_lookup_fmap.
  by destruct (l !! i) as [[r|]|].
Qed.

(** When the loop over the outcomes ends, it has appended the present
    outcomes of the positions it went through, in order. *)
Lemma collect_Ok rest idx outcomes rpcs checked working rpcs' checked' working' :
  collect rest idx outcomes rpcs checked working = Ok (rpcs', checked', working') →
  rpcs' = rpcs ++ omap (outcome_at outcomes) (seq idx (length rest)).
Proof.
  revert idx rpcs checked working.
  induction rest as [|u rest IH]; intros idx rpcs checked working; simpl.
  - intros [= <- _ _]. by rewrite app_nil_r.
  - destruct (shortUrl u) as [short|e]; [| done].
    destruct (outcome_at outcomes idx) as [r|].
    + intros H%IH. by rewrite H, <- app_assoc.
    + apply IH.
Qed.

Lemma shortUrl_nullish (u : value) :
  nullish u = true → shortUrl u = Crash TypeError.
Proof. by destruct u. Qed.

Lemma shortUrl_defined (u : value) :
  nullish u = false → ∃ short, shortUrl u = Ok short.
Proof.
  destruct u as [| |n|s]; try done; intros _; unfold shortUrl.
  - by eexists.
  - destruct (bool_decide _); by eexists.
Qed.

(** The loop dies of a [TypeError] when a candidate is [undefined] or
    [null], and of nothing else. *)
Lemma collect_Crash rest idx outcomes rpcs checked working :
  (∃ u, u ∈ rest ∧ nullish u = true) →
  collect rest idx outcomes rpcs checked working = Crash TypeError.
Proof.
  intros (u0 & Hin & Hnull). revert idx rpcs checked working.
  induction rest as [|u rest IH]; intros idx rpcs checked working;
    [by apply elem_of_nil in Hin |].
  cbn [collect]. destruct (nullish u) eqn:Hu.
  - by rewrite shortUrl_nullish.
  - destruct (shortUrl_defined u Hu) as [short ->].
    apply elem_of_cons in Hin as [->|Hin]; [congruence |].
    destruct (outcome_at outcomes idx); by apply IH.
Qed.

Lemma collect_total rest idx outcomes rpcs checked working :
  Forall (λ u, nullish u = false) rest →
  ∃ res, collect rest idx outcomes rpcs checked working = Ok res.
Proof.
  intros Hall. revert idx rpcs checked working.
  induction Hall as [|u rest Hu _ IH]; intros idx rpcs checked working;
    cbn [collect].
  - by eexists.
  - destruct (shortUrl_defined u Hu) as [short ->].
    destruct (outcome_at outcomes idx); apply IH.
Qed.

Lemma omap_lookup_seq {A B} (g : option A → option B) (l : list A) (k : nat)
      (h : nat → option A) :
  (∀ i, i < length l → h (k + i) = l !! i) →
  omap (λ i, g (h i)) (seq k (length l)) = omap (λ x, g (Some x)) l.
Proof.
  revert k. induction l as [|x l IH]; intros k Hh; [done |].
  assert (h k = Some x) as Hk.
  { rewrite <- (Nat.add_0_r k). apply (Hh 0). simpl. lia. }
  assert (omap (λ i, g (h i)) (seq (S k) (length l))
          = omap (λ x, g (Some x)) l) as Hrest.
  { apply IH. intros i Hi. replace (S k + i) with (k + S i) by lia.
    apply (Hh (S i)). simpl. lia. }
  cbn. rewrite Hk. cbn in Hrest. by rewrite Hrest.
Qed.

Lemma omap_pointwise {A B} (f g : A → option B) (l : list A) :
  (∀ x, f x = g x) → omap f l = omap g l.
Proof.
  intros Hfg. induction l as [|x l IH]; [done |].
  cbn. rewrite Hfg. cbn in IH. by rewrite IH.
Qed.

Lemma present_outcomes (l : list (option rpcInfo)) :
  omap (outcome_at (Some <$> l)) (seq 0 (length l)) = omap id l.
Proof.
  transitivity (omap (λ i, mjoin (l !! i)) (seq 0 (length l))).
  - apply omap_pointwise. intros i. apply outcome_at_Some.
  - rewrite (omap_lookup_seq mjoin l 0 (λ i, l !! i)) by done.
    by apply omap_pointwise.
Qed.

(** Keeping the present outcomes keeps a subsequence of the candidates. *)
Lemma present_sublist (f : nat → value → option rpcInfo) (urls : list value) :
  (∀ i u r, f i u = Some r → url r = u) →
  url <$> omap id (imap f urls) `sublist_of` urls.
Proof.
  revert f. induction urls as [|u urls IH]; intros f Hf; [done |].
  cbn. destruct (f 0 u) as [r|] eqn:Hr; cbn.
  - rewrite (Hf 0 u r Hr). apply sublist_skip, IH.
    intros i u' r'. apply Hf.
  - apply sublist_cons, IH. intros i u' r'. apply Hf.
Qed.

Lemma batchSize_positive (argv : list string) :
  (1 ≤ Args.batchSize (Args.parseArgs argv))%Z.
Proof. apply ArgsFacts.clamp_batch_range. Qed.

Lemma process_chain_checked pf argv net sched st c :
  nullish (chainId c) = false →
  chainId c ≠ Str "" →
  (Args.skipExisting (Args.parseArgs argv) = true →
   fs st !! chain_file (Args.outDir (Args.parseArgs argv)) (chainId c) = None) →
  process_chain pf (Args.parseArgs argv) net sched st c
  = check_chain pf (Args.parseArgs argv) net sched st c.
Proof.
  intros Hid Hne Hfresh. unfold process_chain, check_chain.
  rewrite Hid, bool_decide_false by done. cbn [orb].
  assert (Args.skipExisting (Args.parseArgs argv)
          && bool_decide (is_Some (fs st !! chain_file
               (Args.outDir (Args.parseArgs argv)) (chainId c))) = false) as ->.
  { destruct (Args.skipExisting (Args.parseArgs argv)); [| done].
    by rewrite Hfresh. }
  case_bool_decide; [done |].
  rewrite batchCall_taskFns by apply batchSize_positive.
  rewrite SchedulerFacts.spawn_claims_all by apply batchSize_positive.
  cbn [Scheduler.trace Spec.claimed_up_to].
  replace (Scheduler.claimed (Scheduler.Start <$> seq 0 (length (taskFns pf net (getRpcs c)))))
    with (seq 0 (length (getRpcs c))); [done |].
  unfold taskFns. rewrite length_imap.
  pose proof (SchedulerFacts.claimed_starts (seq 0 (length (getRpcs c))) [])
    as Hclaimed.
  rewrite app_nil_r in Hclaimed. by rewrite Hclaimed.
Qed.

(** C6: for every chain that is checked and persisted, the [rpcs] list
    of the payload written to the chain's file (and recorded in
    [merged]) holds exactly the present probe outcomes, in candidate
    order; its URLs form a subsequence of the chain's candidate list. *)
Theorem rpcs_subsequence pf argv net sched st c st' :
  process_chain pf (Args.parseArgs argv) net sched st c = Ok st' →
  nullish (chainId c) = false →
  chainId c ≠ Str "" →
  (Args.skipExisting (Args.parseArgs argv) = true →
   fs st !! chain_file (Args.outDir (Args.parseArgs argv)) (chainId c) = None) →
  ∃ p,
    fs st' !! chain_file (Args.outDir (Args.parseArgs argv)) (chainId c)
    = Some (JSON_stringify pf p)
    ∧ merged st' !! to_String (chainId c) = Some (Fresh p)
    ∧ p_chainId p = chainId c
    ∧ p_rpcs p = omap id (probe_outcomes pf net (getRpcs c))
    ∧ url <$> p_rpcs p `sublist_of` getRpcs c.
Proof.
  intros Hrun Hid Hne Hfresh.
  rewrite process_chain_checked in Hrun by done.
  unfold check_chain in Hrun.
  assert (url <$> omap id (probe_outcomes pf net (getRpcs c))
          `sublist_of` getRpcs c) as Hsub.
  { apply present_sublist. intros i u r. apply probe_url. }
  case_bool_decide as Hlen.
  - injection Hrun as <-. eexists (Payload _ _ []). cbn.
    rewrite !lookup_insert_eq.
    apply length_zero_iff_nil in Hlen. rewrite Hlen. done.
  - destruct (collect _ _ _ _ _ _) as [[[rpcs checked] working]|e] eqn:Hcollect;
      [| done].
    injection Hrun as <-. apply collect_Ok in Hcollect. cbn in Hcollect.
    assert (rpcs = omap id (probe_outcomes pf net (getRpcs c))) as ->.
    { rewrite Hcollect.
      rewrite <- (length_imap (λ idx u, (Prober.probe pf (net idx) u).2) (getRpcs c)).
      apply present_outcomes. }
    eexists (Payload _ _ _). cbn. rewrite !lookup_insert_eq. done.
Qed.

(** C7: in skip-existing mode, for every chain whose output file exists
    (and parses), the turn of the loop issues no network call, writes
    no file, and sets the chain's entry of [merged] to the parsed
    content of the file. *)
Theorem skip_existing_reuses pf a net sched st c content existing :
  Args.skipExisting a = true →
  nullish (chainId c) = false →
  chainId c ≠ Str "" →
  fs st !! chain_file (Args.outDir a) (chainId c) = Some content →
  JSON_parse pf content = Some existing →
  ∃ st',
    process_chain pf a net sched st c = Ok st'
    ∧ calls st' = calls st
    ∧ fs st' = fs st
    ∧ merged st' !! to_String (chainId c) = Some (Loaded existing)
    ∧ written (counters st') = written (counters st)
    ∧ skipped (counters st') = S (skipped (counters st)).
Proof.
  intros Hskip Hid Hne Hfile Hparse. unfold process_chain.
  rewrite Hid, bool_decide_false, Hskip, Hfile by done. cbn [orb andb].
  rewrite bool_decide_true by done. cbn. rewrite Hparse.
  eexists. split; [reflexivity |]. cbn. by rewrite lookup_insert_eq.
Qed.

(** *** Skip-existing over a whole run *)

(** In skip-existing mode a turn of the loop never touches a file that
    is already there. *)
Lemma process_chain_keeps_file pf a net sched st c st' (path content : string) :
  Args.skipExisting a = true →
  process_chain pf a net sched st c = Ok st' →
  fs st !! path = Some content →
  fs st' !! path = Some content.
Proof.
  intros Hskip Hrun Hfile. unfold process_chain in Hrun.
  cbn zeta in Hrun.
  destruct (nullish (chainId c) || bool_decide (chainId c = Str ""));
    [by injection Hrun as <- |].
  rewrite Hskip in Hrun. cbn [andb] in Hrun.
  case_bool_decide as Hexists.
  - destruct (fs st !! chain_file (Args.outDir a) (chainId c) ≫= JSON_parse pf);
      [| done].
    by injection Hrun as <-.
  - assert (chain_file (Args.outDir a) (chainId c) ≠ path) as Hother.
    { intros Heq. apply Hexists. rewrite Heq. by exists content. }
    case_bool_decide.
    + injection Hrun as <-. cbn. by rewrite lookup_insert_ne.
    + destruct (Scheduler.batchCall _ _ _) as [outcomes|e]; [| done].
      destruct (collect _ _ _ _ _ _) as [[[rpcs checked] working]|e]; [| done].
      injection Hrun as <-. cbn. by rewrite lookup_insert_ne.
Qed.

(** The turn of a chain whose file exists loads the file into [merged]. *)
Lemma process_chain_loads_entry pf a net sched st c st'
      (content : string) (existing : json) :
  Args.skipExisting a = true →
  process_chain pf a net sched st c = Ok st' →
  nullish (chainId c) = false →
  chainId c ≠ Str "" →
  fs st !! chain_file (Args.outDir a) (chainId c) = Some content →
  JSON_parse pf content = Some existing →
  merged st' !! to_String (chainId c) = Some (Loaded existing).
Proof.
  intros Hskip Hrun Hid Hne Hfile Hparse. unfold process_chain in Hrun.
  cbn zeta in Hrun.
  rewrite Hid, bool_decide_false, Hskip, Hfile in Hrun by done.
  cbn [orb andb] in Hrun. rewrite bool_decide_true in Hrun by done.
  cbn in Hrun. rewrite Hparse in Hrun. injection Hrun as <-. cbn.
  by rewrite lookup_insert_eq.
Qed.

(** Nor does a turn replace the entry of [merged] loaded from such a file
    by anything else. *)
Lemma process_chain_keeps_entry pf a net sched st c st' (id : value)
      (content : string) (existing : json) :
  Args.skipExisting a = true →
  process_chain pf a net sched st c = Ok st' →
  fs st !! chain_file (Args.outDir a) id = Some content →
  JSON_parse pf content = Some existing →
  merged st !! to_String id = Some (Loaded existing) →
  merged st' !! to_String id = Some (Loaded existing).
Proof.
  intros Hskip Hrun Hfile Hparse Hentry. unfold process_chain in Hrun.
  cbn zeta in Hrun.
  destruct (nullish (chainId c) || bool_decide (chainId c = Str ""));
    [by injection Hrun as <- |].
  rewrite Hskip in Hrun. cbn [andb] in Hrun.
  destruct (decide (to_String (chainId c) = to_String id)) as [Hsame|Hdiff].
  - assert (chain_file (Args.outDir a) (chainId c)
            = chain_file (Args.outDir a) id) as Hpath
      by (unfold chain_file; by rewrite Hsame).
    rewrite Hpath, Hfile in Hrun. rewrite bool_decide_true in Hrun by done.
    cbn in Hrun. rewrite Hparse in Hrun. injection Hrun as <-. cbn.
    by rewrite Hsame, lookup_insert_eq.
  - case_bool_decide as Hexists.
    + destruct (fs st !! chain_file (Args.outDir a) (chainId c) ≫= JSON_parse pf);
        [| done].
      injection Hrun as <-. cbn. by rewrite lookup_insert_ne.
    + case_bool_decide.
      * injection Hrun as <-. cbn. by rewrite lookup_insert_ne.
      * destruct (Scheduler.batchCall _ _ _) as [outcomes|e]; [| done].
        destruct (collect _ _ _ _ _ _) as [[[rpcs checked] working]|e]; [| done].
        injection Hrun as <-. cbn. by rewrite lookup_insert_ne.
Qed.

(** When the run reaches the end of the chain list, the entry of every
    chain whose file existed at the start is the parsed content of that
    file, and the file is as it was. *)
Lemma main_loop_skip_existing pf a net sched chains k st st' c
      (content : string) (existing : json) :
  Args.skipExisting a = true →
  main_loop pf a net sched k chains st = Ok st' →
  nullish (chainId c) = false →
  chainId c ≠ Str "" →
  fs st !! chain_file (Args.outDir a) (chainId c) = Some content →
  JSON_parse pf content = Some existing →
  c ∈ chains ∨ merged st !! to_String (chainId c) = Some (Loaded existing) →
  merged st' !! to_String (chainId c) = Some (Loaded existing)
  ∧ fs st' !! chain_file (Args.outDir a) (chainId c) = Some content.
Proof.
  intros Hskip Hrun Hid Hne Hfile Hparse.
  revert k st Hrun Hfile.
  induction chains as [|c0 chains IH]; intros k st Hrun Hfile Hin.
  - injection Hrun as <-. destruct Hin as [Hin|Hentry]; [| done].
    by apply elem_of_nil in Hin.
  - cbn [main_loop] in Hrun.
    destruct (process_chain pf a (net k) (sched k) st c0) as [st0|e] eqn:Hstep;
      [| done].
    apply (IH (S k) st0 Hrun).
    + by apply (process_chain_keeps_file pf a (net k) (sched k) st c0).
    + destruct Hin as [[Heq|Hin]%elem_of_cons|Hentry].
      * right. subst c0.
        by apply (process_chain_loads_entry pf a (net k) (sched k) st c st0
                    content existing).
      * by left.
      * right.
        by apply (process_chain_keeps_entry pf a (net k) (sched k) st c0 st0
                    (chainId c) content existing).
Qed.

(** C8 (as the code behaves): a chain that is checked and whose
    candidate list holds an [undefined] (an object entry without [url])
    or a [null] ends the run with a [TypeError]: the loop over the
    outcomes reads [url.length] (index.js:204) before it looks at the
    outcome.  Nothing is written for the chain, and the chains after it
    are not processed. *)
Theorem undefined_url_crashes pf argv net sched k st c chains u :
  nullish (chainId c) = false →
  chainId c ≠ Str "" →
  (Args.skipExisting (Args.parseArgs argv) = true →
   fs st !! chain_file (Args.outDir (Args.parseArgs argv)) (chainId c) = None) →
  u ∈ getRpcs c →
  nullish u = true →
  process_chain pf (Args.parseArgs argv) (net k) (sched k) st c = Crash TypeError
  ∧ main_loop pf (Args.parseArgs argv) net sched k (c :: chains) st
    = Crash TypeError.
Proof.
  intros Hid Hne Hfresh Hin Hnull.
  assert (process_chain pf (Args.parseArgs argv) (net k) (sched k) st c
          = Crash TypeError) as Hcrash.
  { rewrite process_chain_checked by done. unfold check_chain.
    case_bool_decide as Hlen.
    - apply length_zero_iff_nil in Hlen. rewrite Hlen in Hin.
      by apply elem_of_nil in Hin.
    - rewrite collect_Crash; [done |]. by exists u. }
  split; [done |]. cbn [main_loop]. by rewrite Hcrash.
Qed.

(** What does hold for malformed candidates: when every candidate is a string (or a
    number), well-formed or not, the chain is checked to the end. *)
Lemma defined_urls_never_crash pf argv net sched st c :
  nullish (chainId c) = false →
  chainId c ≠ Str "" →
  (Args.skipExisting (Args.parseArgs argv) = true →
   fs st !! chain_file (Args.outDir (Args.parseArgs argv)) (chainId c) = None) →
  Forall (λ u, nullish u = false) (getRpcs c) →
  ∃ st', process_chain pf (Args.parseArgs argv) net sched st c = Ok st'.
Proof.
  intros Hid Hne Hfresh Hall.
  rewrite process_chain_checked by done. unfold check_chain.
  case_bool_decide; [by eexists |].
  destruct (collect_total (getRpcs c) 0
              (Some <$> probe_outcomes pf net (getRpcs c)) []
              (totalRpcChecked (counters st)) (totalWorking (counters st)) Hall)
    as [[[rpcs checked] working] ->].
  by eexists.
Qed.

(** A candidate whose URL does not parse fails the first check. *)
Lemma malformed_url_fails pf net (s : string) :
  URL_hostname pf s = None →
  Prober.probe pf net (Str s) = ([Get s], None).
Proof.
  intros Hbad. rewrite ProberFacts.probe_unfold.
  assert ((Prober.checkConnect pf net (Str s)).2 = false) as ->; [| done].
  destruct ((Prober.checkConnect pf net (Str s)).2) eqn:Hc; [| done].
  apply ProberFacts.checkConnect_true in Hc as [res Hres].
  apply ProberFacts.fetch_Some in Hres as (h & _ & Hh & _).
  cbn in Hh. congruence.
Qed.

(** The example of the specification: candidates [A, B, C] with
    outcomes [fail, ok, ok] yield [B, C] in that order. *)
Example abc_keeps_bc :
  ∃ st',
    process_chain sample_platform (Args.parseArgs plain_argv)
                  first_dead [2; 1; 0] fresh_run chain_abc = Ok st'
    ∧ merged st' !! "1"
      = Some (Fresh {| p_name := Str "Test"; p_chainId := Num 1;
                       p_rpcs := [ {| url := Str "https://b"; supportsIpv6 := true |};
                                   {| url := Str "https://c"; supportsIpv6 := true |} ] |})
    ∧ fs st' !! "./rpcs/1.json" = Some "1"
    ∧ totalRpcChecked (counters st') = 3
    ∧ totalWorking (counters st') = 2.
Proof. eexists. split; [vm_compute; reflexivity |]. by vm_compute. Qed.

Lemma rpcs_subsequence_witness :
  ∃ st',
    process_chain sample_platform (Args.parseArgs plain_argv)
                  first_dead [2; 1; 0] fresh_run chain_abc = Ok st'
    ∧ ∃ p,
        fs st' !! chain_file (Args.outDir (Args.parseArgs plain_argv)) (chainId chain_abc)
        = Some (JSON_stringify sample_platform p)
        ∧ merged st' !! to_String (chainId chain_abc) = Some (Fresh p)
        ∧ p_chainId p = chainId chain_abc
        ∧ p_rpcs p
          = omap id (probe_outcomes sample_platform first_dead
                                    (getRpcs chain_abc))
        ∧ url <$> p_rpcs p `sublist_of` getRpcs chain_abc.
Proof.
  destruct (process_chain sample_platform (Args.parseArgs plain_argv)
              first_dead [2; 1; 0] fresh_run chain_abc) as [st'|e] eqn:Hrun;
    [| vm_compute in Hrun; discriminate].
  exists st'. split; [reflexivity |].
  apply (rpcs_subsequence sample_platform plain_argv
           first_dead [2; 1; 0] fresh_run chain_abc st' Hrun).
  - reflexivity.
  - discriminate.
  - discriminate.
Defined.

Lemma skip_existing_reuses_witness :
  ∃ st',
    process_chain sample_platform (Args.parseArgs skip_argv)
                  first_dead [] cached_run chain_abc = Ok st'
    ∧ calls st' = calls cached_run
    ∧ fs st' = fs cached_run
    ∧ merged st' !! to_String (chainId chain_abc) = Some (Loaded (JString "cached"))
    ∧ written (counters st') = written (counters cached_run)
    ∧ skipped (counters st') = S (skipped (counters cached_run)).
Proof.
  apply (skip_existing_reuses sample_platform (Args.parseArgs skip_argv)
           first_dead [] cached_run chain_abc "cached" (JString "cached")).
  - reflexivity.
  - reflexivity.
  - discriminate.
  - vm_compute. reflexivity.
  - reflexivity.
Defined.

Lemma undefined_url_crashes_witness :
  process_chain sample_platform (Args.parseArgs plain_argv)
                first_dead [] fresh_run chain_no_url = Crash TypeError
  ∧ main_loop sample_platform (Args.parseArgs plain_argv)
              (λ _, first_dead) (λ _, []) 0 [chain_no_url; chain_abc] fresh_run
    = Crash TypeError.
Proof.
  apply (undefined_url_crashes sample_platform plain_argv
           (λ _, first_dead) (λ _, []) 0 fresh_run chain_no_url [chain_abc] Undefined).
  - reflexivity.
  - discriminate.
  - discriminate.
  - vm_compute. apply list_elem_of_here.
  - reflexivity.
Defined.

(** The same list of chains without the broken one is processed to the
    end. *)
Example main_loop_abc :
  ∃ st',
    main_loop sample_platform (Args.parseArgs plain_argv)
              (λ _, first_dead) (λ _, []) 0 [chain_abc] fresh_run = Ok st'
    ∧ written (counters st') = 1.
Proof. eexists. split; [vm_compute; reflexivity | done]. Qed.

End ChainsFacts.


(** ** The scheduler, beyond the specification *)

Module SchedulerMore.
Import Scheduler Spec Samples SchedulerFacts.

Section More.
Context {V E : Type}.
Implicit Types (tasks : list (task V E)) (sched : list nat).

Lemma settle_order_nil sched : settle_order [] sched = [].
Proof.
  induction sched as [|i sched IH]; [done |].
  cbn. rewrite decide_False; [done |]. apply not_elem_of_nil.
Qed.

(** X1: Whatever positive concurrency is asked for, the call does the same:
    same calls in the same order, same settlements, same result. *)
Theorem batchCall_concurrency_irrelevant tasks (c1 c2 : Z) sched :
  1 ≤ c1 → 1 ≤ c2 →
  batchCall tasks c1 sched = batchCall tasks c2 sched
  ∧ batchCall_trace tasks c1 sched = batchCall_trace tasks c2 sched.
Proof.
  intros H1 H2. unfold batchCall, batchCall_trace.
  by rewrite !spawn_claims_all by done.
Qed.

(** X2: A concurrency of zero or less starts no worker: no task is ever
    called and the call returns the empty list, however many tasks it
    was given. *)
Theorem batchCall_without_worker tasks (concurrency : Z) sched :
  concurrency ≤ 0 →
  batchCall tasks concurrency sched = Returns []
  ∧ batchCall_trace tasks concurrency sched = [].
Proof.
  intros HC. unfold batchCall, batchCall_trace.
  rewrite spawn_no_worker by done. cbn [results trace].
  change (promised (V:=V) (E:=E) []) with (@nil nat).
  by rewrite settle_order_nil.
Qed.

End More.

Lemma batchCall_concurrency_irrelevant_witness :
  batchCall [slow 7; slow 8; slow 9] 1 [2%nat]
  = batchCall [slow 7; slow 8; slow 9] 64 [2%nat]
  ∧ batchCall_trace [slow 7; slow 8; slow 9] 1 [2%nat]
    = batchCall_trace [slow 7; slow 8; slow 9] 64 [2%nat].
Proof.
  apply (batchCall_concurrency_irrelevant [slow 7; slow 8; slow 9] 1 64 [2%nat]);
    lia.
Defined.

Lemma batchCall_without_worker_witness :
  batchCall [slow 7; slow 8] 0 [] = Returns []
  ∧ batchCall_trace [slow 7; slow 8] 0 [] = [].
Proof. apply (batchCall_without_worker [slow 7; slow 8] 0 []). lia. Defined.

End SchedulerMore.

(** ** The command line, beyond the specification *)

Module ArgsMore.
Import Args Spec Notions ArgsFacts.

Lemma find_arg_cons (p a : string) (argv : list string) :
  find_arg p (a :: argv) = if String.prefix p a then Some a else find_arg p argv.
Proof.
  unfold find_arg. cbn [list_find]. case_decide as Hp.
  - by rewrite Hp.
  - destruct (String.prefix p a); [done |].
    by destruct (list_find _ argv) as [[i x]|].
Qed.

Lemma find_arg_first (p a : string) (pre post : list string) :
  Forall (λ x, String.prefix p x = false) pre →
  String.prefix p a = true →
  find_arg p (pre ++ a :: post) = Some a.
Proof.
  intros Hpre Ha. induction Hpre as [|x pre Hx _ IH]; cbn [app].
  - by rewrite find_arg_cons, Ha.
  - by rewrite find_arg_cons, Hx.
Qed.

Lemma find_arg_none (p : string) (argv : list string) :
  Forall (λ x, String.prefix p x = false) argv → find_arg p argv = None.
Proof.
  induction 1 as [|x argv Hx _ IH]; [done |].
  by rewrite find_arg_cons, Hx.
Qed.

(** X3: Only the first [--batch=] argument counts: what stands before it,
    if it is no [--batch=] argument, and what stands after it make no
    difference to the batch size. *)
Theorem batch_first_wins (pre post : list string) (a : string) :
  Forall (λ x, String.prefix "--batch=" x = false) pre →
  String.prefix "--batch=" a = true →
  batchSize (parseArgs (pre ++ a :: post)) = batchSize (parseArgs [a]).
Proof.
  intros Hpre Ha. cbn [parseArgs batchSize]. unfold batch.
  rewrite (find_arg_first _ a pre post Hpre Ha).
  by rewrite find_arg_cons, Ha.
Qed.

Lemma batch_first_wins_witness :
  batchSize (parseArgs (["node"; "index.js"] ++ "--batch=8" :: ["--batch=64"]))
  = batchSize (parseArgs ["--batch=8"]).
Proof.
  apply (batch_first_wins ["node"; "index.js"] ["--batch=64"] "--batch=8").
  - repeat constructor.
  - reflexivity.
Defined.

Lemma all_chars_app (P : ascii → Prop) (s t : string) :
  all_chars P s → all_chars P t → all_chars P (s +:+ t).
Proof. induction s as [|c s IH]; [done |]. intros [? ?] ?. split; auto. Qed.

Lemma append_assoc (s t u : string) : (s +:+ t) +:+ u = s +:+ (t +:+ u).
Proof.
  induction s as [|c s IH]; [done |].
  change (String c ((s +:+ t) +:+ u) = String c (s +:+ t +:+ u)).
  by rewrite IH.
Qed.

Lemma pretty_N_go_app (x : N) (s : string) :
  pretty_N_go x s = pretty_N_go x EmptyString +:+ s.
Proof.
  revert s. induction (N.lt_wf_0 x) as [x _ IH]; intros s.
  destruct (decide (x = 0)%N) as [->|Hx]; [by rewrite !pretty_N_go_0 |].
  rewrite (pretty_N_go_step x s), (pretty_N_go_step x EmptyString) by lia.
  assert (x `div` 10 < x)%N as Hlt by (apply N.div_lt; lia).
  rewrite (IH _ Hlt (String (pretty_N_char (x `mod` 10)) s)).
  rewrite (IH _ Hlt (String (pretty_N_char (x `mod` 10)) EmptyString)).
  by rewrite append_assoc.
Qed.

Lemma digits_stops (junk : string) (acc : Z) :
  stops junk → digits junk (Some acc) = Some acc.
Proof. destruct junk as [|c rest]; [done |]. cbn. by intros ->. Qed.

Lemma parseInt_pretty_N_junk (x : N) (junk : string) :
  (0 < x)%N → stops junk →
  parseInt (pretty_N_go x EmptyString +:+ junk) = Some (Z.of_N x).
Proof.
  intros Hx Hjunk. rewrite <- pretty_N_go_app.
  destruct (pretty_N_go_head x junk Hx) as (c & d & rest & Heq & Hd).
  rewrite Heq, (parseInt_digit_head c d rest Hd), <- Heq.
  rewrite digits_pretty_N_go by done. by apply digits_stops.
Qed.

(** [parseInt] reads a decimal integer back whatever follows it, as
    long as no digit follows at once. *)
Lemma parseInt_pretty_junk (n : Z) (junk : string) :
  stops junk → parseInt (pretty n +:+ junk) = Some n.
Proof.
  intros Hjunk. destruct n as [|p|p].
  - change (pretty 0 +:+ junk) with (String "0" junk).
    unfold parseInt. cbn. by apply digits_stops.
  - change (pretty (Z.pos p)) with (pretty (N.pos p)).
    unfold pretty, pretty_N. rewrite decide_False by done.
    by rewrite parseInt_pretty_N_junk.
  - change (pretty (Z.neg p)) with (String "-" (pretty (N.pos p))).
    unfold pretty, pretty_N. rewrite decide_False by done.
    change (String "-" (pretty_N_go (N.pos p) EmptyString) +:+ junk)
      with (String "-" (pretty_N_go (N.pos p) EmptyString +:+ junk)).
    rewrite <- pretty_N_go_app.
    unfold parseInt. cbn [skip_spaces].
    change (is_space "-") with false. cbn match.
    rewrite digits_pretty_N_go by done. by rewrite digits_stops.
Qed.

(** X4: A number followed by other text still sets the batch size: for
    [--batch=n...], where the text after the decimal integer [n] holds no
    [=] sign and does not start with a digit, the batch size is 16 for
    [n < 1] and [min n 128] otherwise. *)
Theorem batch_numeric_prefix (argv : list string) (n : Z) (junk : string) :
  find_arg "--batch=" argv = Some ("--batch=" +:+ pretty n +:+ junk) →
  all_chars (λ c, c ≠ "="%char) junk →
  stops junk →
  batchSize (parseArgs argv) = if bool_decide (n < 1) then 16 else Z.min n 128.
Proof.
  intros Hfind Hno Hstops. cbn [parseArgs batchSize]. unfold batch.
  rewrite Hfind.
  change (split_eq ("--batch=" +:+ pretty n +:+ junk))
    with ("--batch" :: split_eq (pretty n +:+ junk)).
  rewrite split_eq_whole by (apply all_chars_app; [apply pretty_no_eq | done]).
  cbn [lookup list_lookup]. by rewrite parseInt_pretty_junk.
Qed.

Lemma batch_numeric_prefix_witness :
  batchSize (parseArgs ["node"; "index.js"; "--batch=32 workers"])
  = if bool_decide (32 < 1) then 16 else Z.min 32 128.
Proof.
  apply (batch_numeric_prefix ["node"; "index.js"; "--batch=32 workers"]
           32 " workers").
  - reflexivity.
  - cbn. repeat split; discriminate.
  - reflexivity.
Defined.

Lemma split_eq_head (s : string) :
  ∃ pieces, split_eq s = before_eq s :: pieces.
Proof.
  induction s as [|c s [pieces IH]]; [by exists [] |].
  cbn. case_decide; [by eexists |]. rewrite IH. by eexists.
Qed.

Lemma before_eq_whole (s : string) :
  all_chars (λ c, c ≠ "="%char) s → before_eq s = s.
Proof.
  induction s as [|c s IH]; [done |]. intros [Hc Hs].
  cbn. rewrite decide_False by done. by rewrite IH.
Qed.

(** X5: The output directory is [./rpcs] without an [--out=] argument;
    with [--out=p] it is [p] up to the first [=] sign of [p], hence [p]
    itself when [p] holds none. *)
Theorem outDir_read (argv : list string) :
  (find_arg "--out=" argv = None → outDir (parseArgs argv) = "./rpcs")
  ∧ (∀ p, find_arg "--out=" argv = Some ("--out=" +:+ p) →
          outDir (parseArgs argv) = before_eq p
          ∧ (all_chars (λ c, c ≠ "="%char) p → outDir (parseArgs argv) = p)).
Proof.
  cbn [parseArgs outDir]. split.
  - by intros ->.
  - intros p ->.
    change (split_eq ("--out=" +:+ p)) with ("--out" :: split_eq p).
    destruct (split_eq_head p) as [pieces ->]. cbn. split; [done |].
    intros Hp. by rewrite before_eq_whole.
Qed.

Lemma outDir_read_witness :
  outDir (parseArgs ["node"; "index.js"; "--out=./data=v2"]) = before_eq "./data=v2".
Proof.
  apply (proj2 (outDir_read ["node"; "index.js"; "--out=./data=v2"]) "./data=v2").
  reflexivity.
Defined.

Example outDir_truncated :
  outDir (parseArgs ["node"; "index.js"; "--out=./data=v2"]) = "./data".
Proof. reflexivity. Qed.

End ArgsMore.

(** ** The selection of chains *)

Module SelectionFacts.
Import Js Model Args Spec Notions Selection ArgsFacts ArgsMore.

Lemma append_cons (c : ascii) (s t : string) :
  String c s +:+ t = String c (s +:+ t).
Proof. reflexivity. Qed.

Lemma append_nil_r (s : string) : s +:+ EmptyString = s.
Proof. induction s as [|c s IH]; [done |]. by rewrite append_cons, IH. Qed.

(** *** [trim] before [parseInt] changes nothing *)

Lemma trim_end_cons (c : ascii) (s : string) :
  is_space c = false → trim_end (String c s) = String c (trim_end s).
Proof. intros Hc. cbn. rewrite Hc. by destruct (trim_end s). Qed.

Lemma digits_trim_end (s : string) (acc : option Z) :
  digits (trim_end s) acc = digits s acc.
Proof.
  revert acc. induction s as [|c s IH]; intros acc; [done |].
  destruct (digit c) as [d|] eqn:Hd.
  - rewrite trim_end_cons.
    + cbn. by rewrite Hd, IH.
    + apply digit_code in Hd. unfold is_space. apply bool_decide_false. lia.
  - cbn. destruct (trim_end s); [destruct (is_space c) |]; cbn; by rewrite ?Hd.
Qed.

Lemma skip_spaces_head (c : ascii) (s : string) :
  is_space c = false → skip_spaces (String c s) = String c s.
Proof. intros Hc. cbn. by rewrite Hc. Qed.

Lemma skip_spaces_shape (s : string) :
  skip_spaces s = EmptyString
  ∨ ∃ c rest, skip_spaces s = String c rest ∧ is_space c = false.
Proof.
  induction s as [|c s IH]; [by left |].
  cbn. destruct (is_space c) eqn:Hc; [done |]. right. by exists c, s.
Qed.

Lemma parseInt_head (c : ascii) (s : string) :
  is_space c = false →
  parseInt (String c (trim_end s)) = parseInt (String c s).
Proof.
  intros Hc. unfold parseInt. rewrite !skip_spaces_head by done.
  destruct c as [[] [] [] [] [] [] [] []];
    first [ discriminate Hc
          | cbn [digits]; by rewrite ?digits_trim_end
          | cbn; by rewrite ?digits_trim_end
          | by rewrite <- (trim_end_cons _ s Hc), digits_trim_end ].
Qed.

(** [parseInt(s.trim(), 10)] is [parseInt(s, 10)]. *)
Lemma parseInt_trim (s : string) : parseInt (trim s) = parseInt s.
Proof.
  unfold trim.
  assert (parseInt s = parseInt (skip_spaces s)) as ->.
  { unfold parseInt. f_equal.
    destruct (skip_spaces_shape s) as [->|(c & rest & -> & Hc)]; [done |].
    by rewrite skip_spaces_head. }
  destruct (skip_spaces_shape s) as [->|(c & rest & -> & Hc)]; [done |].
  rewrite trim_end_cons by done. by apply parseInt_head.
Qed.

Lemma parseInt_skip (pad s : string) :
  all_chars (λ c, is_space c = true) pad → parseInt (pad +:+ s) = parseInt s.
Proof.
  intros Hpad. unfold parseInt. f_equal.
  induction pad as [|c pad IH]; [done |]. destruct Hpad as [Hc Hpad].
  rewrite append_cons. cbn [skip_spaces]. rewrite Hc. by apply IH.
Qed.

Lemma space_stops (pad : string) :
  all_chars (λ c, is_space c = true) pad → stops pad.
Proof.
  destruct pad as [|c pad]; [done |]. intros [Hc _]. cbn.
  unfold digit. apply bool_decide_eq_true in Hc.
  case_bool_decide; [lia | done].
Qed.

(** A decimal integer with white space around it is read back. *)
Lemma parse_padded (item : string * Z * string) :
  all_chars (λ c, is_space c = true) item.1.1 →
  all_chars (λ c, is_space c = true) item.2 →
  parseInt (trim (padded item)) = Some item.1.2.
Proof.
  intros H1 H2. rewrite parseInt_trim. unfold padded.
  rewrite parseInt_skip by done.
  by apply parseInt_pretty_junk, space_stops.
Qed.

Lemma parse_ids_cons (piece : string) (pieces : list string) :
  parse_ids (piece :: pieces)
  = match parseInt (trim piece) with
    | Some n => n :: parse_ids pieces
    | None => parse_ids pieces
    end.
Proof. unfold parse_ids. cbn. by destruct (parseInt (trim piece)). Qed.

Lemma parse_ids_padded (items : list (string * Z * string)) (rest : list string) :
  Forall (λ item, all_chars (λ c, is_space c = true) item.1.1
                  ∧ all_chars (λ c, is_space c = true) item.2) items →
  parse_ids ((padded <$> items) ++ rest)
  = ((λ item, item.1.2) <$> items) ++ parse_ids rest.
Proof.
  induction 1 as [|item items [H1 H2] _ IH]; [done |].
  cbn [fmap list_fmap app]. rewrite parse_ids_cons, parse_padded by done.
  by rewrite IH.
Qed.

(** *** Splitting *)

Lemma split_at_whole (sep : ascii) (s : string) :
  all_chars (λ c, c ≠ sep) s → split_at sep s = [s].
Proof.
  induction s as [|c s IH]; [done |]. intros [Hc Hs].
  cbn [split_at]. rewrite decide_False by done. by rewrite IH.
Qed.

Lemma split_at_piece (sep : ascii) (p rest : string) :
  all_chars (λ c, c ≠ sep) p →
  split_at sep (p +:+ String sep rest) = p :: split_at sep rest.
Proof.
  induction p as [|c p IH]; intros Hp.
  - change (EmptyString +:+ String sep rest) with (String sep rest).
    cbn [split_at]. by rewrite decide_True.
  - destruct Hp as [Hc Hp]. rewrite append_cons. cbn [split_at].
    rewrite decide_False by done. by rewrite IH.
Qed.

Lemma split_at_join (sep : ascii) (item : string) (items : list string) :
  Forall (λ p, all_chars (λ c, c ≠ sep) p) (item :: items) →
  split_at sep (join_with (String sep EmptyString) (item :: items))
  = item :: items.
Proof.
  revert item. induction items as [|item' items IH]; intros item Hall.
  - apply split_at_whole. by inversion Hall.
  - inversion Hall as [|? ? Hitem Hrest]; subst.
    change (join_with (String sep EmptyString) (item :: item' :: items))
      with (item +:+ String sep (join_with (String sep EmptyString) (item' :: items))).
    rewrite split_at_piece by done. by rewrite IH.
Qed.

Lemma split_runs_not_nil (b : bool) (s : string) : split_runs b s ≠ [].
Proof.
  revert b. induction s as [|c s IH]; intros b; [done |].
  cbn. destruct (is_sep c); [destruct b; [apply IH | done] |].
  by destruct (split_runs false s).
Qed.

Lemma split_runs_no_lead (s : string) :
  no_lead s → split_runs true s = split_runs false s.
Proof. destruct s as [|c s]; [done |]. cbn. by intros ->. Qed.

Lemma split_runs_skip (sep rest : string) :
  all_chars (λ c, is_sep c = true) sep → no_lead rest →
  split_runs true (sep +:+ rest) = split_runs false rest.
Proof.
  intros Hsep Hrest. induction sep as [|c sep IH].
  - change (EmptyString +:+ rest) with rest. by apply split_runs_no_lead.
  - destruct Hsep as [Hc Hsep]. rewrite append_cons. cbn [split_runs].
    rewrite Hc. by apply IH.
Qed.

Lemma split_runs_sep (sep rest : string) :
  separators sep → no_lead rest →
  split_runs false (sep +:+ rest) = EmptyString :: split_runs false rest.
Proof.
  intros [Hne Hsep] Hrest. destruct sep as [|c sep]; [done |].
  destruct Hsep as [Hc Hsep]. rewrite append_cons. cbn [split_runs].
  rewrite Hc. by rewrite split_runs_skip.
Qed.

Lemma split_runs_piece (p sep rest : string) :
  all_chars (λ c, is_sep c = false) p →
  separators sep → no_lead rest →
  split_runs false (p +:+ sep +:+ rest) = p :: split_runs false rest.
Proof.
  intros Hp Hsep Hrest. induction p as [|c p IH].
  - change (EmptyString +:+ sep +:+ rest) with (sep +:+ rest).
    by apply split_runs_sep.
  - destruct Hp as [Hc Hp]. rewrite append_cons. cbn [split_runs].
    rewrite Hc. by rewrite IH.
Qed.

(** The pieces of a text made of lines are its lines, and an empty
    piece after the last separator. *)
Lemma split_runs_lines (lines : list (string * string)) :
  Forall (λ l, l.1 ≠ EmptyString
               ∧ all_chars (λ c, is_sep c = false) l.1
               ∧ separators l.2) lines →
  split_runs false (join_after lines) = (fst <$> lines) ++ [EmptyString].
Proof.
  induction 1 as [|[p sep] lines (Hne & Hp & Hsep) Hall IH]; [done |].
  cbn [join_after foldr fst snd]. cbn [fst snd] in *.
  rewrite split_runs_piece; [| done | done |].
  - fold (join_after lines). by rewrite IH.
  - fold (join_after lines). destruct Hall as [|[p' sep'] lines' (Hne' & Hp' & _) _];
      [done |].
    cbn [join_after foldr fst snd]. cbn [fst snd] in *.
    destruct p' as [|c p']; [done |]. by destruct Hp' as [Hc _].
Qed.

(** *** The characters of a decimal integer *)

Lemma pretty_N_go_chars (P : ascii → Prop) (x : N) (s : string) :
  (∀ d, (d < 10)%N → P (pretty_N_char d)) →
  all_chars P s → all_chars P (pretty_N_go x s).
Proof.
  intros HP. revert s. induction (N.lt_wf_0 x) as [x _ IH]; intros s Hs.
  destruct (decide (x = 0)%N) as [->|Hx]; [by rewrite pretty_N_go_0 |].
  rewrite pretty_N_go_step by lia. apply IH; [apply N.div_lt; lia |].
  split; [| done]. apply HP, N.mod_lt. lia.
Qed.

Lemma pretty_chars (P : ascii → Prop) (n : Z) :
  (∀ d, (d < 10)%N → P (pretty_N_char d)) → P "-"%char →
  all_chars P (pretty n).
Proof.
  intros HP Hminus. destruct n as [|p|p].
  - split; [| done]. by apply (HP 0%N).
  - change (pretty (Z.pos p)) with (pretty (N.pos p)).
    unfold pretty, pretty_N. rewrite decide_False by done.
    by apply pretty_N_go_chars.
  - change (pretty (Z.neg p)) with (String "-" (pretty (N.pos p))).
    split; [done |].
    unfold pretty, pretty_N. rewrite decide_False by done.
    by apply pretty_N_go_chars.
Qed.

Lemma pretty_N_char_cases (P : ascii → Prop) :
  P "0"%char → P "1"%char → P "2"%char → P "3"%char → P "4"%char →
  P "5"%char → P "6"%char → P "7"%char → P "8"%char → P "9"%char →
  ∀ d, (d < 10)%N → P (pretty_N_char d).
Proof. intros. unfold pretty_N_char. by repeat case_match. Qed.

(** No character of a decimal integer is a comma, an [=] sign, a line
    feed or white space. *)
Lemma pretty_plain (n : Z) :
  all_chars (λ c, c ≠ ","%char ∧ c ≠ "="%char
                  ∧ is_sep c = false ∧ is_space c = false) (pretty n).
Proof.
  apply pretty_chars; [| done].
  apply (pretty_N_char_cases
           (λ c, c ≠ ","%char ∧ c ≠ "="%char
                 ∧ is_sep c = false ∧ is_space c = false)); done.
Qed.

Lemma pretty_not_empty (n : Z) : pretty n ≠ EmptyString.
Proof.
  destruct n as [|p|p]; [done | | done].
  change (pretty (Z.pos p)) with (pretty (N.pos p)).
  unfold pretty, pretty_N. rewrite decide_False by done.
  destruct (pretty_N_go_head (N.pos p) EmptyString) as (c & d & rest & -> & _);
    done.
Qed.

Lemma space_plain (c : ascii) :
  is_space c = true → c ≠ ","%char ∧ c ≠ "="%char.
Proof. intros Hc. split; intros ->; by vm_compute in Hc. Qed.

Lemma padded_no (sep : ascii) (item : string * Z * string) :
  sep = ","%char ∨ sep = "="%char →
  spaces item.1.1 → spaces item.2 →
  all_chars (λ c, c ≠ sep) (padded item).
Proof.
  intros Hsep H1 H2. unfold padded.
  assert (∀ pad, spaces pad → all_chars (λ c, c ≠ sep) pad) as Hpad.
  { intros pad. apply RegexFacts.all_chars_impl. intros c Hc%space_plain.
    destruct Hsep as [-> | ->]; tauto. }
  apply all_chars_app; [by apply Hpad |]. apply all_chars_app; [| by apply Hpad].
  eapply RegexFacts.all_chars_impl; [| apply pretty_plain].
  intros c (? & ? & _). destruct Hsep as [-> | ->]; tauto.
Qed.

Lemma all_chars_join (P : ascii → Prop) (sep : string) (items : list string) :
  all_chars P sep → Forall (all_chars P) items →
  all_chars P (join_with sep items).
Proof.
  intros Hsep. induction 1 as [|item items Hitem Hall IH]; [done |].
  destruct items as [|item' items]; [done |].
  change (join_with sep (item :: item' :: items))
    with (item +:+ sep +:+ join_with sep (item' :: items)).
  by repeat apply all_chars_app.
Qed.

Lemma or_null_cons (n : Z) (ns : list Z) : or_null (n :: ns) = Some (n :: ns).
Proof. done. Qed.

(** *** Reading the chain ids *)

(** X6: [--chains=] followed by decimal integers separated by commas, with
    any white space around each, selects exactly these integers, in the
    order given and with their repetitions. *)
Theorem chains_argument_read (dirname : string) (disk : gmap string string)
        (argv : list string) (items : list (string * Z * string)) :
  find_arg "--chains-file=" argv = None →
  find_arg "--chains=" argv
  = Some ("--chains=" +:+ join_with "," (padded <$> items)) →
  items ≠ [] →
  Forall (λ item, spaces item.1.1 ∧ spaces item.2) items →
  Forall safe (number <$> items) →
  chainIds dirname disk argv = Some (Some (number <$> items)).
Proof.
  intros Hnofile Hfind Hne Hpads _. unfold chainIds.
  rewrite Hnofile, Hfind.
  change (split_eq ("--chains=" +:+ join_with "," (padded <$> items)))
    with ("--chains" :: split_eq (join_with "," (padded <$> items))).
  rewrite split_eq_whole.
  2:{ apply all_chars_join; [by split |].
      apply Forall_fmap. eapply Forall_impl; [exact Hpads |].
      intros item [H1 H2]. apply padded_no; auto. }
  cbn [lookup list_lookup].
  destruct items as [|item items]; [done |].
  change (padded <$> item :: items) with (padded item :: (padded <$> items)).
  rewrite split_at_join.
  2:{ change (padded item :: (padded <$> items)) with (padded <$> item :: items).
      apply Forall_fmap. eapply Forall_impl; [exact Hpads |].
      intros it [H1 H2]. apply padded_no; auto. }
  change (padded item :: (padded <$> items)) with (padded <$> item :: items).
  rewrite <- (app_nil_r (padded <$> item :: items)).
  rewrite parse_ids_padded by done. by rewrite app_nil_r.
Qed.

Lemma chains_argument_read_witness :
  chainIds "/app" ∅ ["node"; "index.js"; "--chains=1, 137 ,56"]
  = Some (Some [1; 137; 56]).
Proof.
  apply (chains_argument_read "/app" ∅ ["node"; "index.js"; "--chains=1, 137 ,56"]
           [("", 1, ""); (" ", 137, " "); ("", 56, "")]).
  - reflexivity.
  - reflexivity.
  - discriminate.
  - repeat constructor.
  - repeat constructor; cbn; lia.
Defined.

Lemma padded_line (item : string * Z * string) :
  blanks item.1.1 → blanks item.2 →
  padded item ≠ EmptyString ∧ all_chars (λ c, is_sep c = false) (padded item).
Proof.
  intros H1 H2. unfold padded. split.
  - intros [_ [Hp _]%RegexFacts.append_nil_inv]%RegexFacts.append_nil_inv.
    by apply pretty_not_empty in Hp.
  - assert (∀ pad, blanks pad → all_chars (λ c, is_sep c = false) pad) as Hpad.
    { intros pad. apply RegexFacts.all_chars_impl. by intros c [_ ?]. }
    apply all_chars_app; [by apply Hpad |].
    apply all_chars_app; [| by apply Hpad].
    eapply RegexFacts.all_chars_impl; [| apply pretty_plain].
    by intros c (_ & _ & ? & _).
Qed.

Lemma blanks_spaces (pad : string) : blanks pad → spaces pad.
Proof. apply RegexFacts.all_chars_impl. by intros c [? _]. Qed.

(** X7: A chains file that lists decimal integers, each followed by a run of
    line feeds and commas and possibly surrounded by blanks (a carriage
    return before the line feed is one), selects exactly these integers;
    a [--chains=] argument given besides the file is not looked at. *)
Theorem chains_file_read (dirname : string) (disk : gmap string string)
        (argv : list string) (filePath : string)
        (lines : list ((string * Z * string) * string)) :
  find_arg "--chains-file=" argv = Some ("--chains-file=" +:+ filePath) →
  all_chars (λ c, c ≠ "="%char) filePath →
  disk !! (if isAbsolute filePath then filePath
           else Chains.path_join dirname filePath)
  = Some (join_after ((λ l, (padded l.1, l.2)) <$> lines)) →
  lines ≠ [] →
  Forall (λ l, blanks l.1.1.1 ∧ blanks l.1.2 ∧ separators l.2) lines →
  Forall safe ((λ l, number l.1) <$> lines) →
  chainIds dirname disk argv = Some (Some ((λ l, number l.1) <$> lines)).
Proof.
  intros Hfind Hpath Hdisk Hne Hlines _. unfold chainIds.
  rewrite Hfind.
  change (split_eq ("--chains-file=" +:+ filePath))
    with ("--chains-file" :: split_eq filePath).
  rewrite split_eq_whole by done. cbn [lookup list_lookup].
  unfold parseChainsFromFile. cbn zeta. rewrite Hdisk.
  rewrite split_runs_lines.
  2:{ apply Forall_fmap. eapply Forall_impl; [exact Hlines |].
      intros [item sep] (H1 & H2 & H3). cbn [fst snd] in *.
      destruct (padded_line item H1 H2) as [? ?]. done. }
  rewrite <- list_fmap_compose.
  replace (fst ∘ (λ l : (string * Z * string) * string, (padded l.1, l.2)) <$> lines)
    with (padded <$> (fst <$> lines))
    by (rewrite <- list_fmap_compose; by apply list_fmap_ext).
  rewrite parse_ids_padded.
  2:{ apply Forall_fmap. eapply Forall_impl; [exact Hlines |].
      intros [item sep] (H1 & H2 & _). cbn [fst snd] in *.
      split; by apply blanks_spaces. }
  change (parse_ids [EmptyString]) with (@nil Z). rewrite app_nil_r.
  rewrite <- list_fmap_compose.
  destruct lines as [|l lines]; [done |]. by cbn.
Qed.

Lemma chains_file_read_witness :
  chainIds "/app" Inputs.disk_with_chains Inputs.file_argv
  = Some (Some ((λ l, number l.1) <$> Inputs.chains_txt)).
Proof.
  apply (chains_file_read "/app" Inputs.disk_with_chains Inputs.file_argv
           "chains.txt" Inputs.chains_txt).
  - reflexivity.
  - cbn. repeat split; discriminate.
  - vm_compute. reflexivity.
  - discriminate.
  - repeat constructor; try discriminate.
  - repeat constructor; cbn; lia.
Defined.

Example chains_file_ids :
  chainIds "/app" Inputs.disk_with_chains Inputs.file_argv = Some (Some [1; 137; 56]).
Proof. vm_compute. reflexivity. Qed.

Lemma parse_ids_none (pieces : list string) :
  Forall (λ piece, parseInt piece = None) pieces → parse_ids pieces = [].
Proof.
  induction 1 as [|piece pieces Hp _ IH]; [done |].
  by rewrite parse_ids_cons, parseInt_trim, Hp.
Qed.

(** X8: A [--chains=] argument none of whose pieces starts with a number
    selects nothing, and then nothing is filtered: the loop runs over
    the whole directory, as if the argument were absent. *)
Theorem chains_without_number (pf : platform) (ToNumber : string → option Z)
        (dirname : string) (disk : gmap string string) (argv : list string)
        (allChains : list chain) net sched st (list : string) :
  find_arg "--chains-file=" argv = None →
  find_arg "--chains=" argv = Some ("--chains=" +:+ list) →
  Forall (λ piece, parseInt piece = None) (split_at "," (before_eq list)) →
  chainIds dirname disk argv = Some None
  ∧ main_body pf ToNumber dirname disk argv allChains net sched st
    = Some (Chains.main_loop pf (parseArgs argv) net sched 0 allChains st).
Proof.
  intros Hnofile Hfind Hnone.
  assert (chainIds dirname disk argv = Some None) as Hids.
  { unfold chainIds. rewrite Hnofile, Hfind.
    change (split_eq ("--chains=" +:+ list)) with ("--chains" :: split_eq list).
    destruct (split_eq_head list) as [pieces ->]. cbn [lookup list_lookup].
    by rewrite parse_ids_none. }
  split; [done |]. unfold main_body. by rewrite Hids.
Qed.

Lemma chains_without_number_witness :
  chainIds "/app" ∅ ["node"; "index.js"; "--chains=mainnet,polygon"] = Some None
  ∧ main_body Samples.sample_platform (λ _, None) "/app" ∅
      ["node"; "index.js"; "--chains=mainnet,polygon"]
      [Samples.chain_abc] (λ _, Samples.first_dead) (λ _, []) Samples.fresh_run
    = Some (Chains.main_loop Samples.sample_platform
              (parseArgs ["node"; "index.js"; "--chains=mainnet,polygon"])
              (λ _, Samples.first_dead) (λ _, []) 0 [Samples.chain_abc]
              Samples.fresh_run).
Proof.
  apply (chains_without_number Samples.sample_platform (λ _, None) "/app" ∅
           ["node"; "index.js"; "--chains=mainnet,polygon"]
           [Samples.chain_abc] (λ _, Samples.first_dead) (λ _, [])
           Samples.fresh_run "mainnet,polygon").
  - reflexivity.
  - reflexivity.
  - repeat constructor.
Defined.

End SelectionFacts.

(** ** The prober, beyond the specification *)

Module ProberMore.
Import Js Model Prober Spec Samples ProberFacts.

Lemma checkConnect_answered pf net u :
  (checkConnect pf net u).2 = true ↔
  ∃ hostname after_ms body,
    URL_hostname pf (to_String u) = Some hostname
    ∧ http_get net (to_String u) = Response after_ms body
    ∧ after_ms < CONNECT_TIMEOUT_MS.
Proof.
  rewrite checkConnect_true. split.
  - intros [res (h & after & Hh & Hget & Hlt)%fetch_Some]. by exists h, after, res.
  - intros (h & after & body & Hh & Hget & Hlt). exists body.
    apply fetch_Some. by exists h, after.
Qed.

(** X9: The connectivity check passes exactly when the URL parses and the
    server answers the [GET] in less than [CONNECT_TIMEOUT_MS]; what the
    answer holds plays no role, and the check calls [fetch] this one
    time whatever comes of it. *)
Theorem connectivity_means pf net u :
  ((checkConnect pf net u).2 = true ↔
   ∃ hostname after_ms body,
     URL_hostname pf (to_String u) = Some hostname
     ∧ http_get net (to_String u) = Response after_ms body
     ∧ after_ms < CONNECT_TIMEOUT_MS)
  ∧ (checkConnect pf net u).1 = [Get (to_String u)].
Proof. split; [apply checkConnect_answered | apply checkConnect_calls]. Qed.

(** X10: An endpoint is reported as working exactly when its URL parses, the
    [GET] is answered in time, and the [POST] is answered in time with a
    JSON body whose [result] matches the hex pattern; the report then
    carries the URL as it was given.  The DNS lookup has no say in it. *)
Theorem working_endpoint pf net u :
  (is_Some (probe pf net u).2 ↔
   ∃ hostname t1 body t2 data,
     URL_hostname pf (to_String u) = Some hostname
     ∧ http_get net (to_String u) = Response t1 body
     ∧ t1 < CONNECT_TIMEOUT_MS
     ∧ http_post net (to_String u) = Response t2 (Some data)
     ∧ t2 < RPC_TIMEOUT_MS
     ∧ has_hex_result data)
  ∧ (∀ r, (probe pf net u).2 = Some r → url r = u).
Proof.
  rewrite probe_unfold. split.
  - split.
    + destruct (checkConnect pf net u).2 eqn:Hc; [| by intros [? ?]].
      destruct (checkRpc pf net u).2 eqn:Hr; [| by intros [? ?]].
      intros _.
      apply checkConnect_answered in Hc as (h & t1 & body & Hh & Hget & Ht1).
      apply checkRpc_true in Hr as (h' & t2 & data & _ & Hpost & Ht2 & Hhex).
      by exists h, t1, body, t2, data.
    + intros (h & t1 & body & t2 & data & Hh & Hget & Ht1 & Hpost & Ht2 & Hhex).
      assert ((checkConnect pf net u).2 = true) as ->
        by (apply checkConnect_answered; by exists h, t1, body).
      assert ((checkRpc pf net u).2 = true) as ->
        by (apply checkRpc_true; by exists h, t2, data).
      by eexists.
  - intros r. destruct (checkConnect pf net u).2; [| done].
    destruct (checkRpc pf net u).2; [| done]. by intros [= <-].
Qed.

(** X11: A string the URL parser rejects is reported as not working after
    the one [fetch] that fails on it: no RPC request is made for it and
    no DNS query. *)
Theorem unparseable_url_fails pf net (s : string) :
  URL_hostname pf s = None →
  probe pf net (Str s) = ([Get s], None).
Proof.
  intros Hbad. rewrite probe_unfold.
  destruct ((checkConnect pf net (Str s)).2) eqn:Hc; [| done].
  apply checkConnect_answered in Hc as (h & _ & _ & Hh & _).
  cbn in Hh. congruence.
Qed.

Lemma unparseable_url_fails_witness :
  probe sample_platform healthy (Str "ftp//broken") = ([Get "ftp//broken"], None).
Proof. apply (unparseable_url_fails sample_platform healthy "ftp//broken"). reflexivity. Defined.

End ProberMore.

(** ** Whole runs of the loop *)

Module RunFacts.
Import Js Model Chains Spec Samples Notions ChainsFacts.

Local Open Scope nat_scope.
Local Set Warnings "-clear-no-such-hyp".

Lemma handled_true (c : chain) :
  handled c = true ↔ nullish (chainId c) = false ∧ chainId c ≠ Str "".
Proof.
  unfold handled. rewrite negb_true_iff, orb_false_iff, bool_decide_eq_false.
  done.
Qed.

(** A turn of the loop when at least one worker is started: the chain
    is passed over, or its file is reused, or it is checked. *)
Lemma process_chain_unfold pf a net sched st c :
  (1 ≤ Args.batchSize a)%Z →
  process_chain pf a net sched st c =
  if negb (handled c) then Ok st
  else if Args.skipExisting a
          && bool_decide (is_Some (fs st !! chain_file (Args.outDir a) (chainId c)))
  then
    match fs st !! chain_file (Args.outDir a) (chainId c) ≫= JSON_parse pf with
    | None => Crash SyntaxError
    | Some existing =>
        Ok {| fs := fs st;
              merged := <[key c := Loaded existing]> (merged st);
              calls := calls st;
              counters := {| totalRpcChecked := totalRpcChecked (counters st);
                             totalWorking := totalWorking (counters st);
                             skipped := S (skipped (counters st));
                             written := written (counters st) |} |}
    end
  else check_chain pf a net sched st c.
Proof.
  intros HC. unfold process_chain, check_chain, handled, key. cbn zeta.
  rewrite negb_involutive.
  destruct (nullish (chainId c) || bool_decide (chainId c = Str "")); [done |].
  destruct (Args.skipExisting a
            && bool_decide (is_Some (fs st !! chain_file (Args.outDir a) (chainId c))));
    [done |].
  case_bool_decide; [done |].
  rewrite batchCall_taskFns by done.
  rewrite SchedulerFacts.spawn_claims_all by done.
  cbn [Scheduler.trace Spec.claimed_up_to].
  replace (Scheduler.claimed
             (Scheduler.Start <$> seq 0 (length (taskFns pf net (getRpcs c)))))
    with (seq 0 (length (getRpcs c))); [done |].
  unfold taskFns. rewrite length_imap.
  pose proof (SchedulerFacts.claimed_starts (seq 0 (length (getRpcs c))) [])
    as Hclaimed.
  rewrite app_nil_r in Hclaimed. by rewrite Hclaimed.
Qed.

(** What the loop over the outcomes counts. *)
Lemma collect_counts rest idx outcomes rpcs checked working rpcs' checked' working' :
  collect rest idx outcomes rpcs checked working = Ok (rpcs', checked', working') →
  checked' = checked + length rest
  ∧ ∃ added, rpcs' = rpcs ++ added
             ∧ working' = working + length added
             ∧ length added ≤ length rest.
Proof.
  revert idx rpcs checked working.
  induction rest as [|u rest IH]; intros idx rpcs checked working; cbn [collect].
  - intros [= <- <- <-]. split; [cbn; lia |]. exists []. by rewrite app_nil_r.
  - destruct (shortUrl u) as [short|e]; [| done].
    destruct (outcome_at outcomes idx) as [r|].
    + intros (-> & added & -> & -> & Hlen)%IH. split; [cbn; lia |].
      exists (r :: added). rewrite <- app_assoc. cbn. split_and!; [done | lia | lia].
    + intros (-> & added & -> & -> & Hlen)%IH. split; [cbn; lia |].
      exists added. cbn. split_and!; [done | lia | lia].
Qed.

(** What a completed check of a chain leaves behind. *)
Lemma check_chain_Ok pf a net sched st c st' :
  check_chain pf a net sched st c = Ok st' →
  ∃ rpcs,
    length rpcs ≤ length (getRpcs c)
    ∧ st' = persist (chain_file (Args.outDir a) (chainId c)) pf
              (Payload (coalesce (name c) (Str "unknown")) (chainId c) rpcs)
              {| fs := fs st;
                 merged := merged st;
                 calls := calls st
                          ++ task_calls pf net (getRpcs c)
                               (seq 0 (length (getRpcs c)));
                 counters :=
                   {| totalRpcChecked :=
                        totalRpcChecked (counters st) + length (getRpcs c);
                      totalWorking := totalWorking (counters st) + length rpcs;
                      skipped := skipped (counters st);
                      written := written (counters st) |} |}.
Proof.
  unfold check_chain. case_bool_decide as Hlen.
  - intros [= <-]. exists []. split; [cbn; lia |].
    apply length_zero_iff_nil in Hlen. rewrite Hlen. cbn.
    unfold persist. cbn. destruct st as [f m cs [ch w sk wr]]. cbn.
    by rewrite app_nil_r, !Nat.add_0_r.
  - destruct (collect _ _ _ _ _ _) as [[[rpcs checked] working]|e] eqn:Hcol;
      [| done].
    intros [= <-].
    apply collect_counts in Hcol as (-> & added & Hrpcs & -> & Hlen').
    cbn in Hrpcs. subst rpcs. by exists added.
Qed.

(** The three ways a turn of the loop can end well. *)
Lemma step_cases pf argv net sched st c st' :
  process_chain pf (Args.parseArgs argv) net sched st c = Ok st' →
  (handled c = false ∧ st' = st)
  ∨ (handled c = true
     ∧ Args.skipExisting (Args.parseArgs argv) = true
     ∧ ∃ content existing,
         fs st !! chain_file (Args.outDir (Args.parseArgs argv)) (chainId c)
         = Some content
         ∧ JSON_parse pf content = Some existing
         ∧ st' = {| fs := fs st;
                    merged := <[key c := Loaded existing]> (merged st);
                    calls := calls st;
                    counters :=
                      {| totalRpcChecked := totalRpcChecked (counters st);
                         totalWorking := totalWorking (counters st);
                         skipped := S (skipped (counters st));
                         written := written (counters st) |} |})
  ∨ (handled c = true
     ∧ (Args.skipExisting (Args.parseArgs argv) = true →
        fs st !! chain_file (Args.outDir (Args.parseArgs argv)) (chainId c) = None)
     ∧ ∃ rpcs,
         length rpcs ≤ length (getRpcs c)
         ∧ st' = persist (chain_file (Args.outDir (Args.parseArgs argv)) (chainId c)) pf
                   (Payload (coalesce (name c) (Str "unknown")) (chainId c) rpcs)
                   {| fs := fs st;
                      merged := merged st;
                      calls := calls st
                               ++ task_calls pf net (getRpcs c)
                                    (seq 0 (length (getRpcs c)));
                      counters :=
                        {| totalRpcChecked :=
                             totalRpcChecked (counters st) + length (getRpcs c);
                           totalWorking := totalWorking (counters st) + length rpcs;
                           skipped := skipped (counters st);
                           written := written (counters st) |} |}).
Proof.
  rewrite process_chain_unfold by apply batchSize_positive.
  destruct (handled c) eqn:Hh; cbn [negb]; [| intros [= <-]; by left].
  destruct (Args.skipExisting (Args.parseArgs argv)) eqn:Hskip; cbn [andb].
  - case_bool_decide as Hex.
    + destruct Hex as [content Hfile]. rewrite Hfile. cbn.
      destruct (JSON_parse pf content) as [existing|] eqn:Hparse; [| done].
      intros [= <-]. right. left. split_and!; [done | done |].
      by exists content, existing.
    + intros Hrun%check_chain_Ok. right. right. split; [done |]. split; [| done].
      intros _. by apply eq_None_not_Some.
  - intros Hrun%check_chain_Ok. right. right. by split.
Qed.

(** *** Invariants of a run *)

(** What one turn does to the counters, to the keys of [merged] and to
    the files. *)
Lemma step_effects pf argv net sched st c st' :
  process_chain pf (Args.parseArgs argv) net sched st c = Ok st' →
  let file := chain_file (Args.outDir (Args.parseArgs argv)) (chainId c) in
  (if handled c
   then written (counters st') + skipped (counters st')
        = S (written (counters st) + skipped (counters st))
        ∧ dom (merged st') = {[ key c ]} ∪ dom (merged st)
        ∧ is_Some (fs st' !! file)
        ∧ (∀ path, path ≠ file → fs st' !! path = fs st !! path)
   else st' = st)
  ∧ totalRpcChecked (counters st) ≤ totalRpcChecked (counters st')
  ∧ totalWorking (counters st) ≤ totalWorking (counters st')
  ∧ totalWorking (counters st') + totalRpcChecked (counters st)
    ≤ totalWorking (counters st) + totalRpcChecked (counters st')
  ∧ (∀ path, is_Some (fs st !! path) → is_Some (fs st' !! path)).
Proof.
  intros Hstep%step_cases. revert Hstep.
  generalize (Args.parseArgs argv). intros a Hstep file.
  destruct Hstep
    as [[Hh ->]|[(Hh & _ & content & existing & Hfile & _ & ->)
                |(Hh & _ & rpcs & Hlen & ->)]]; rewrite Hh; cbn.
  - split_and!; [done | lia | lia | lia | done].
  - split_and!;
      first [ lia | done | by rewrite dom_insert_L | by exists content ].
  - split_and!;
      first [ lia | done | by rewrite dom_insert_L
            | by rewrite lookup_insert_eq
            | intros path Hpath; by rewrite lookup_insert_ne
            | intros path Hpath;
              destruct (decide (file = path)) as [<-|Hne];
              [by rewrite lookup_insert_eq | by rewrite lookup_insert_ne] ].
Qed.

(** X12: The summary counters add up: over a run that reaches the end, every
    chain with a usable id is counted once, as written or as skipped,
    and the other chains are not counted; the count of working endpoints
    grows by no more than the count of checked endpoints. *)
Theorem run_counters pf argv net sched k chains st st' :
  main_loop pf (Args.parseArgs argv) net sched k chains st = Ok st' →
  written (counters st') + skipped (counters st')
  = written (counters st) + skipped (counters st)
    + length (filter (λ c, handled c = true) chains)
  ∧ totalRpcChecked (counters st) ≤ totalRpcChecked (counters st')
  ∧ totalWorking (counters st) ≤ totalWorking (counters st')
  ∧ totalWorking (counters st') + totalRpcChecked (counters st)
    ≤ totalWorking (counters st) + totalRpcChecked (counters st').
Proof.
  revert k st. induction chains as [|c chains IH]; intros k st; cbn [main_loop].
  - intros [= <-]. cbn. lia.
  - destruct (process_chain pf (Args.parseArgs argv) (net k) (sched k) st c)
      as [st1|e] eqn:Hstep; [| done].
    intros (Hsum & Hchecked & Hworking & Hdiff)%IH.
    apply step_effects in Hstep as (Hc & Hchecked1 & Hworking1 & Hdiff1 & _).
    rewrite filter_cons. destruct (handled c) eqn:Hh.
    + destruct Hc as (Hsum1 & _). rewrite decide_True by done. cbn. lia.
    + subst st1. rewrite decide_False by done. lia.
Qed.

Lemma run_counters_witness :
  ∃ st',
    main_loop sample_platform (Args.parseArgs plain_argv)
              (λ _, first_dead) (λ _, []) 0 Inputs.directory fresh_run = Ok st'
    ∧ written (counters st') + skipped (counters st')
      = written (counters fresh_run) + skipped (counters fresh_run)
        + length (filter (λ c, handled c = true) Inputs.directory)
    ∧ totalRpcChecked (counters fresh_run) ≤ totalRpcChecked (counters st')
    ∧ totalWorking (counters fresh_run) ≤ totalWorking (counters st')
    ∧ totalWorking (counters st') + totalRpcChecked (counters fresh_run)
      ≤ totalWorking (counters fresh_run) + totalRpcChecked (counters st').
Proof.
  destruct (main_loop sample_platform (Args.parseArgs plain_argv)
              (λ _, first_dead) (λ _, []) 0 Inputs.directory fresh_run)
    as [st'|e] eqn:Hrun; [| vm_compute in Hrun; discriminate].
  exists st'. split; [reflexivity |].
  apply (run_counters sample_platform plain_argv (λ _, first_dead) (λ _, []) 0
           Inputs.directory fresh_run st' Hrun).
Defined.

Lemma main_loop_merged pf argv net sched k chains st st' :
  main_loop pf (Args.parseArgs argv) net sched k chains st = Ok st' →
  dom (merged st') = dom (merged st) ∪ keys chains.
Proof.
  revert k st. induction chains as [|c chains IH]; intros k st; cbn [main_loop].
  - intros [= <-]. unfold keys. cbn. set_solver.
  - destruct (process_chain pf (Args.parseArgs argv) (net k) (sched k) st c)
      as [st1|e] eqn:Hstep; [| done].
    intros Hrun%IH. rewrite Hrun.
    apply step_effects in Hstep as (Hc & _).
    unfold keys. rewrite filter_cons. destruct (handled c) eqn:Hh.
    + destruct Hc as (_ & -> & _). rewrite decide_True by done. cbn. set_solver.
    + subst st1. by rewrite decide_False by done.
Qed.

(** X13: After a run that reaches the end, [merged] holds an entry for the
    id of every chain that was not passed over, and no entry it did not
    hold before for anything else. *)
Theorem run_merged_keys pf argv net sched k chains st st' :
  main_loop pf (Args.parseArgs argv) net sched k chains st = Ok st' →
  dom (merged st') = dom (merged st) ∪ keys chains.
Proof. apply main_loop_merged. Qed.

Lemma run_merged_keys_witness :
  ∃ st',
    main_loop sample_platform (Args.parseArgs plain_argv)
              (λ _, first_dead) (λ _, []) 0 Inputs.directory fresh_run = Ok st'
    ∧ dom (merged st') = dom (merged fresh_run) ∪ keys Inputs.directory.
Proof.
  destruct (main_loop sample_platform (Args.parseArgs plain_argv)
              (λ _, first_dead) (λ _, []) 0 Inputs.directory fresh_run)
    as [st'|e] eqn:Hrun; [| vm_compute in Hrun; discriminate].
  exists st'. split; [reflexivity |].
  apply (run_merged_keys sample_platform plain_argv (λ _, first_dead) (λ _, []) 0
           Inputs.directory fresh_run st' Hrun).
Defined.

Lemma run_keeps_files pf argv net sched k chains st st' :
  main_loop pf (Args.parseArgs argv) net sched k chains st = Ok st' →
  ∀ path, is_Some (fs st !! path) → is_Some (fs st' !! path).
Proof.
  revert k st. induction chains as [|c chains IH]; intros k st; cbn [main_loop].
  - by intros [= <-].
  - destruct (process_chain pf (Args.parseArgs argv) (net k) (sched k) st c)
      as [st1|e] eqn:Hstep; [| done].
    intros Hrun path Hpath. apply (IH _ _ Hrun).
    apply step_effects in Hstep as (_ & _ & _ & _ & Hkeep). by apply Hkeep.
Qed.

Lemma run_files_there pf argv net sched k chains st st' :
  main_loop pf (Args.parseArgs argv) net sched k chains st = Ok st' →
  ∀ c, c ∈ chains → handled c = true →
       is_Some (fs st' !! chain_file (Args.outDir (Args.parseArgs argv))
                                     (chainId c)).
Proof.
  revert k st. induction chains as [|c chains IH]; intros k st; cbn [main_loop].
  - intros _ c Hc. by apply elem_of_nil in Hc.
  - destruct (process_chain pf (Args.parseArgs argv) (net k) (sched k) st c)
      as [st1|e] eqn:Hstep; [| done].
    intros Hrun c' [->|Hin]%elem_of_cons Hh; [| by apply (IH _ _ Hrun)].
    apply (run_keeps_files _ _ _ _ _ _ _ _ Hrun).
    apply step_effects in Hstep as (Hc & _). rewrite Hh in Hc.
    by destruct Hc as (_ & _ & Hfile & _).
Qed.

(** X14: A run that reaches the end removes no file, leaves a file for every
    chain that was not passed over, and touches no file but the files
    of these chains. *)
Theorem run_files pf argv net sched k chains st st' :
  main_loop pf (Args.parseArgs argv) net sched k chains st = Ok st' →
  (∀ path, is_Some (fs st !! path) → is_Some (fs st' !! path))
  ∧ (∀ c, c ∈ chains → handled c = true →
          is_Some (fs st' !! chain_file (Args.outDir (Args.parseArgs argv))
                                        (chainId c)))
  ∧ (∀ path,
       (∀ c, c ∈ chains → handled c = true →
             chain_file (Args.outDir (Args.parseArgs argv)) (chainId c) ≠ path) →
       fs st' !! path = fs st !! path).
Proof.
  revert k st. induction chains as [|c chains IH]; intros k st; cbn [main_loop].
  - intros [= <-]. split_and!; [done | | done].
    intros c Hc. by apply elem_of_nil in Hc.
  - destruct (process_chain pf (Args.parseArgs argv) (net k) (sched k) st c)
      as [st1|e] eqn:Hstep; [| done].
    intros (Hkeep & Hthere & Hframe)%IH.
    apply step_effects in Hstep as (Hc & _ & _ & _ & Hkeep1).
    split_and!.
    + intros path Hpath. by apply Hkeep, Hkeep1.
    + intros c' [->|Hin]%elem_of_cons Hh; [| by apply Hthere].
      rewrite Hh in Hc. destruct Hc as (_ & _ & Hfile & _). by apply Hkeep.
    + intros path Hpath. rewrite Hframe.
      * destruct (handled c) eqn:Hh; [| by subst st1].
        destruct Hc as (_ & _ & _ & Hother). apply Hother.
        intros ->. apply (Hpath c); [apply list_elem_of_here | done | done].
      * intros c' Hin. apply Hpath. by apply list_elem_of_further.
Qed.

Lemma run_files_witness :
  ∃ st',
    main_loop sample_platform (Args.parseArgs plain_argv)
              (λ _, first_dead) (λ _, []) 0 Inputs.directory fresh_run = Ok st'
    ∧ (∀ path, is_Some (fs fresh_run !! path) → is_Some (fs st' !! path))
    ∧ (∀ c, c ∈ Inputs.directory → handled c = true →
            is_Some (fs st' !! chain_file (Args.outDir (Args.parseArgs plain_argv))
                                          (chainId c)))
    ∧ (∀ path,
         (∀ c, c ∈ Inputs.directory → handled c = true →
               chain_file (Args.outDir (Args.parseArgs plain_argv)) (chainId c) ≠ path) →
         fs st' !! path = fs fresh_run !! path).
Proof.
  destruct (main_loop sample_platform (Args.parseArgs plain_argv)
              (λ _, first_dead) (λ _, []) 0 Inputs.directory fresh_run)
    as [st'|e] eqn:Hrun; [| vm_compute in Hrun; discriminate].
  exists st'. split; [reflexivity |].
  apply (run_files sample_platform plain_argv (λ _, first_dead) (λ _, []) 0
           Inputs.directory fresh_run st' Hrun).
Defined.

(** *** The batch size and the order of completion *)

Lemma process_chain_same pf argv1 argv2 net sched1 sched2 st c :
  Args.outDir (Args.parseArgs argv1) = Args.outDir (Args.parseArgs argv2) →
  Args.skipExisting (Args.parseArgs argv1)
  = Args.skipExisting (Args.parseArgs argv2) →
  process_chain pf (Args.parseArgs argv1) net sched1 st c
  = process_chain pf (Args.parseArgs argv2) net sched2 st c.
Proof.
  intros Hout Hskip. rewrite !process_chain_unfold by apply batchSize_positive.
  unfold check_chain. by rewrite Hout, Hskip.
Qed.

(** X15: Against the same network, two runs that differ only in the batch
    size asked for and in the order in which the probes complete end in
    the same way: same files, same [merged], same calls of each probe,
    same counters, or the same crash. *)
Theorem run_ignores_batch_and_order pf argv1 argv2 net sched1 sched2 k chains st :
  Args.outDir (Args.parseArgs argv1) = Args.outDir (Args.parseArgs argv2) →
  Args.skipExisting (Args.parseArgs argv1)
  = Args.skipExisting (Args.parseArgs argv2) →
  main_loop pf (Args.parseArgs argv1) net sched1 k chains st
  = main_loop pf (Args.parseArgs argv2) net sched2 k chains st.
Proof.
  intros Hout Hskip. revert k st.
  induction chains as [|c chains IH]; intros k st; [done |].
  cbn [main_loop].
  rewrite (process_chain_same pf argv1 argv2 (net k) (sched1 k) (sched2 k)) by done.
  destruct (process_chain pf (Args.parseArgs argv2) (net k) (sched2 k) st c);
    [apply IH | done].
Qed.

Lemma run_ignores_batch_and_order_witness :
  main_loop sample_platform (Args.parseArgs ["node"; "index.js"; "--batch=1"])
            (λ _, first_dead) (λ _, [2; 1]) 0 [chain_abc] fresh_run
  = main_loop sample_platform (Args.parseArgs ["node"; "index.js"; "--batch=64"])
              (λ _, first_dead) (λ _, [0]) 0 [chain_abc] fresh_run.
Proof.
  apply (run_ignores_batch_and_order sample_platform
           ["node"; "index.js"; "--batch=1"] ["node"; "index.js"; "--batch=64"]
           (λ _, first_dead) (λ _, [2; 1]) (λ _, [0]) 0 [chain_abc] fresh_run);
    reflexivity.
Defined.

(** *** Running again over what a run left *)

Lemma skip_run pf argv net sched k chains st :
  Args.skipExisting (Args.parseArgs argv) = true →
  (∀ c, c ∈ chains → handled c = true →
        is_Some (fs st !! chain_file (Args.outDir (Args.parseArgs argv))
                                     (chainId c))) →
  (∀ path content, fs st !! path = Some content → is_Some (JSON_parse pf content)) →
  ∃ st',
    main_loop pf (Args.parseArgs argv) net sched k chains st = Ok st'
    ∧ fs st' = fs st
    ∧ calls st' = calls st
    ∧ written (counters st') = written (counters st)
    ∧ totalRpcChecked (counters st') = totalRpcChecked (counters st).
Proof.
  intros Hskip. revert k st.
  induction chains as [|c chains IH]; intros k st Hfiles Hparse; cbn [main_loop].
  - by exists st.
  - rewrite process_chain_unfold by apply batchSize_positive.
    destruct (handled c) eqn:Hh; cbn [negb].
    + destruct (Hfiles c) as [content Hfile]; [apply list_elem_of_here | done |].
      destruct (Hparse _ _ Hfile) as [existing Hexisting].
      rewrite Hskip, Hfile. cbn [andb]. rewrite bool_decide_true by done.
      cbn. rewrite Hexisting.
      edestruct (IH (S k)) as (st' & -> & ? & ? & ? & ?); [| | by exists st'].
      * intros c' Hin. apply Hfiles. by apply list_elem_of_further.
      * done.
    + apply IH; [| done]. intros c' Hin. apply Hfiles.
      by apply list_elem_of_further.
Qed.

(** X16: After a run that reached the end, a run over the same chains in
    skip-existing mode with the same output directory, if every file
    parses, reaches the end as well without a single network call and
    without writing a file. *)
Theorem rerun_skips_everything pf argv1 argv2 net1 net2 sched1 sched2 k1 k2
        chains st st1 :
  main_loop pf (Args.parseArgs argv1) net1 sched1 k1 chains st = Ok st1 →
  Args.skipExisting (Args.parseArgs argv2) = true →
  Args.outDir (Args.parseArgs argv2) = Args.outDir (Args.parseArgs argv1) →
  (∀ path content, fs st1 !! path = Some content → is_Some (JSON_parse pf content)) →
  ∃ st2,
    main_loop pf (Args.parseArgs argv2) net2 sched2 k2 chains st1 = Ok st2
    ∧ fs st2 = fs st1
    ∧ calls st2 = calls st1
    ∧ written (counters st2) = written (counters st1)
    ∧ totalRpcChecked (counters st2) = totalRpcChecked (counters st1).
Proof.
  intros Hrun Hskip Hout Hparse.
  pose proof (run_files_there _ _ _ _ _ _ _ _ Hrun) as Hthere.
  apply skip_run; [done | | done]. by rewrite Hout.
Qed.

Lemma rerun_skips_everything_witness :
  ∃ st1 st2,
    main_loop sample_platform (Args.parseArgs plain_argv)
              (λ _, first_dead) (λ _, []) 0 Inputs.directory fresh_run = Ok st1
    ∧ main_loop sample_platform (Args.parseArgs skip_argv)
                (λ _ _, dead) (λ _, [0]) 0 Inputs.directory st1 = Ok st2
    ∧ fs st2 = fs st1
    ∧ calls st2 = calls st1
    ∧ written (counters st2) = written (counters st1)
    ∧ totalRpcChecked (counters st2) = totalRpcChecked (counters st1).
Proof.
  destruct (main_loop sample_platform (Args.parseArgs plain_argv)
              (λ _, first_dead) (λ _, []) 0 Inputs.directory fresh_run)
    as [st1|e] eqn:Hrun; [| vm_compute in Hrun; discriminate].
  exists st1.
  destruct (rerun_skips_everything sample_platform plain_argv skip_argv
              (λ _, first_dead) (λ _ _, dead) (λ _, []) (λ _, [0]) 0 0
              Inputs.directory fresh_run st1 Hrun) as [st2 Hst2].
  - reflexivity.
  - reflexivity.
  - vm_compute in Hrun. injection Hrun as <-.
    intros path content Hpath. cbn [JSON_parse sample_platform].
    case_decide as Hempty; [| by eexists].
    match type of Hpath with
    | ?files !! _ = _ =>
        assert (map_Forall (λ (_ : string) (text : string), text ≠ "") files)
          as Hall by (apply (bool_decide_unpack _); vm_compute; exact I)
    end.
    destruct (Hall path content Hpath Hempty).
  - exists st2. split; [reflexivity | exact Hst2].
Defined.

(** *** When a run dies *)

Lemma nullish_candidate (c : chain) :
  ¬ defined_urls c → ∃ u, u ∈ getRpcs c ∧ nullish u = true.
Proof.
  intros Hnot. apply not_Forall_Exists in Hnot; [| apply _].
  apply Exists_exists in Hnot as (u & Hin & Hu). exists u. split; [done |].
  destruct (nullish u) eqn:Hnull; [done |].
  exfalso. apply Hu. cbn. congruence.
Qed.

Lemma check_chain_result pf a net sched st c :
  (defined_urls c → ∃ st', check_chain pf a net sched st c = Ok st')
  ∧ (¬ defined_urls c → check_chain pf a net sched st c = Crash TypeError).
Proof.
  unfold check_chain. split.
  - intros Hall. case_bool_decide; [by eexists |].
    destruct (collect_total (getRpcs c) 0
                (Some <$> probe_outcomes pf net (getRpcs c)) []
                (totalRpcChecked (counters st)) (totalWorking (counters st)) Hall)
      as [[[rpcs checked] working] ->].
    by eexists.
  - intros (u & Hin & Hnull)%nullish_candidate. case_bool_decide as Hlen.
    + apply length_zero_iff_nil in Hlen. rewrite Hlen in Hin.
      by apply elem_of_nil in Hin.
    + rewrite collect_Crash; [done |]. by exists u.
Qed.

(** X17: Without skip-existing, a run reaches the end exactly when no chain
    with a usable id has an [undefined] or [null] candidate; otherwise
    it dies, and always of a [TypeError].  Unreachable hosts, malformed
    URL strings, wrong answers and timeouts never end a run. *)
Theorem run_completes_iff pf argv net sched k chains st :
  Args.skipExisting (Args.parseArgs argv) = false →
  ((∃ st', main_loop pf (Args.parseArgs argv) net sched k chains st = Ok st')
   ↔ Forall (λ c, handled c = true → defined_urls c) chains)
  ∧ (∀ e, main_loop pf (Args.parseArgs argv) net sched k chains st = Crash e →
          e = TypeError).
Proof.
  intros Hskip. revert k st.
  induction chains as [|c chains IH]; intros k st; cbn [main_loop].
  - split; [| done]. split; [by constructor | by exists st].
  - rewrite process_chain_unfold by apply batchSize_positive.
    rewrite Hskip. cbn [andb].
    destruct (handled c) eqn:Hh; cbn [negb].
    + destruct (check_chain_result pf (Args.parseArgs argv) (net k) (sched k) st c)
        as [Hok Hcrash].
      destruct (decide (defined_urls c)) as [Hdef|Hundef].
      * destruct (Hok Hdef) as [st1 ->]. destruct (IH (S k) st1) as [Hiff Herr].
        split; [| done]. rewrite Hiff, Forall_cons.
        split; [by intros Hrest | by intros [_ Hrest]].
      * rewrite (Hcrash Hundef). split; [| by intros e [= <-]].
        rewrite Forall_cons. split; [by intros [? [=]] |].
        intros [Hdef _]. destruct Hundef. by apply Hdef.
    + destruct (IH (S k) st) as [Hiff Herr]. split; [| done].
      rewrite Hiff, Forall_cons.
      split; [| by intros [_ Hrest]].
      intros Hrest. split; [congruence | done].
Qed.

Lemma run_completes_iff_witness :
  ((∃ st', main_loop sample_platform (Args.parseArgs plain_argv)
                     (λ _, first_dead) (λ _, []) 0 [chain_abc; chain_no_url] fresh_run
           = Ok st')
   ↔ Forall (λ c, handled c = true → defined_urls c) [chain_abc; chain_no_url])
  ∧ (∀ e, main_loop sample_platform (Args.parseArgs plain_argv)
                    (λ _, first_dead) (λ _, []) 0 [chain_abc; chain_no_url] fresh_run
          = Crash e →
          e = TypeError).
Proof.
  apply (run_completes_iff sample_platform plain_argv (λ _, first_dead) (λ _, []) 0
           [chain_abc; chain_no_url] fresh_run).
  reflexivity.
Defined.

(** *** The calls of a chain *)

Lemma gets_app (l1 l2 : list call) : gets (l1 ++ l2) = gets l1 ++ gets l2.
Proof. apply omap_app. Qed.

Lemma gets_probe pf net u : gets (Prober.probe pf net u).1 = [to_String u].
Proof.
  rewrite ProberFacts.probe_unfold.
  destruct (Prober.checkConnect pf net u).2; [| done].
  destruct (Prober.checkRpc pf net u).2; [| done].
  cbn [fst]. rewrite ProberFacts.checkIpv6_calls. by case_decide.
Qed.

Lemma gets_task_calls pf net (before rest : list value) :
  gets (task_calls pf net (before ++ rest) (seq (length before) (length rest)))
  = to_String <$> rest.
Proof.
  revert before. induction rest as [|u rest IH]; intros before; [done |].
  cbn [length seq]. unfold task_calls. cbn [mbind list_bind].
  rewrite gets_app. rewrite lookup_app_r by lia.
  rewrite Nat.sub_diag. cbn [lookup list_lookup]. rewrite gets_probe.
  pose proof (IH (before ++ [u])) as IH'.
  rewrite <- app_assoc, length_app in IH'. cbn [length app] in IH'.
  rewrite Nat.add_1_r in IH'. unfold task_calls in IH'. by rewrite IH'.
Qed.

(** X18: When a chain is checked, every candidate gets exactly one [GET], in
    the order of the list and with the repetitions of the list; nothing
    else is fetched with [GET]. *)
Theorem checked_chain_gets pf argv net sched st c st' :
  process_chain pf (Args.parseArgs argv) net sched st c = Ok st' →
  handled c = true →
  (Args.skipExisting (Args.parseArgs argv) = true →
   fs st !! chain_file (Args.outDir (Args.parseArgs argv)) (chainId c) = None) →
  ∃ issued,
    calls st' = calls st ++ issued
    ∧ gets issued = to_String <$> getRpcs c.
Proof.
  intros Hstep Hh Hfresh.
  apply step_cases in Hstep
    as [[Hh' _]|[(_ & Hskip & content & existing & Hfile & _)
                |(_ & _ & rpcs & _ & ->)]].
  - congruence.
  - rewrite Hfresh in Hfile by done. done.
  - eexists. split; [reflexivity |].
    apply (gets_task_calls pf net [] (getRpcs c)).
Qed.

Lemma checked_chain_gets_witness :
  ∃ st',
    process_chain sample_platform (Args.parseArgs plain_argv)
                  first_dead [2; 1; 0] fresh_run chain_abc = Ok st'
    ∧ ∃ issued,
        calls st' = calls fresh_run ++ issued
        ∧ gets issued = to_String <$> getRpcs chain_abc.
Proof.
  destruct (process_chain sample_platform (Args.parseArgs plain_argv)
              first_dead [2; 1; 0] fresh_run chain_abc) as [st'|e] eqn:Hrun;
    [| vm_compute in Hrun; discriminate].
  exists st'. split; [reflexivity |].
  apply (checked_chain_gets sample_platform plain_argv first_dead [2; 1; 0]
           fresh_run chain_abc st' Hrun).
  - reflexivity.
  - discriminate.
Defined.

(** *** A chain without candidates *)

(** X19: A chain without candidates, its [rpc] missing or empty, is written
    at once with an empty list; no request is made and nothing is
    counted as checked. *)
Theorem chain_without_candidates pf a net sched st c :
  handled c = true →
  (Args.skipExisting a = true →
   fs st !! chain_file (Args.outDir a) (chainId c) = None) →
  rpc c = None ∨ rpc c = Some [] →
  ∃ st',
    process_chain pf a net sched st c = Ok st'
    ∧ fs st' !! chain_file (Args.outDir a) (chainId c)
      = Some (JSON_stringify pf
                (Payload (coalesce (name c) (Str "unknown")) (chainId c) []))
    ∧ merged st' !! key c
      = Some (Fresh (Payload (coalesce (name c) (Str "unknown")) (chainId c) []))
    ∧ calls st' = calls st
    ∧ totalRpcChecked (counters st') = totalRpcChecked (counters st)
    ∧ written (counters st') = S (written (counters st)).
Proof.
  intros [Hid Hne]%handled_true Hfresh Hrpc. unfold process_chain. cbn zeta.
  rewrite Hid, bool_decide_false by done. cbn [orb].
  assert (Args.skipExisting a
          && bool_decide (is_Some (fs st !! chain_file (Args.outDir a) (chainId c)))
          = false) as ->.
  { destruct (Args.skipExisting a); [| done]. by rewrite Hfresh. }
  assert (getRpcs c = []) as -> by (unfold getRpcs; by destruct Hrpc as [-> | ->]).
  cbn. eexists. split; [reflexivity |]. cbn.
  by rewrite !lookup_insert_eq.
Qed.

Lemma chain_without_candidates_witness :
  ∃ st',
    process_chain sample_platform (Args.parseArgs plain_argv)
                  first_dead [] fresh_run Inputs.chain_bare = Ok st'
    ∧ fs st' !! chain_file (Args.outDir (Args.parseArgs plain_argv))
                           (chainId Inputs.chain_bare)
      = Some (JSON_stringify sample_platform
                (Payload (coalesce (name Inputs.chain_bare) (Str "unknown"))
                         (chainId Inputs.chain_bare) []))
    ∧ merged st' !! key Inputs.chain_bare
      = Some (Fresh (Payload (coalesce (name Inputs.chain_bare) (Str "unknown"))
                             (chainId Inputs.chain_bare) []))
    ∧ calls st' = calls fresh_run
    ∧ totalRpcChecked (counters st') = totalRpcChecked (counters fresh_run)
    ∧ written (counters st') = S (written (counters fresh_run)).
Proof.
  apply (chain_without_candidates sample_platform (Args.parseArgs plain_argv)
           first_dead [] fresh_run Inputs.chain_bare).
  - reflexivity.
  - discriminate.
  - by left.
Defined.

(** *** Only what was asked for *)

Lemma select_requested ToNumber (ids : list Z) (allChains : list chain) c :
  c ∈ Selection.select ToNumber (Some ids) allChains →
  c ∈ allChains
  ∧ nullish (chainId c) = false
  ∧ ∃ n, Selection.Number_of ToNumber (chainId c) = Some n ∧ n ∈ ids.
Proof.
  unfold Selection.select, Selection.wanted.
  intros [Hw Hin]%list_elem_of_filter. split; [done |].
  apply andb_true_iff in Hw as [Hnull Hset].
  apply negb_true_iff in Hnull. split; [done |].
  destruct (Selection.Number_of ToNumber (chainId c)) as [n|]; [| done].
  exists n. split; [done |].
  apply bool_decide_eq_true in Hset. by apply elem_of_list_to_set in Hset.
Qed.

(** X20: With chain ids on the command line or in the chains file, a run
    that reaches the end adds entries to [merged] only for chains of
    the directory whose id, read as a number, is one of these ids. *)
Theorem requested_only pf ToNumber dirname disk argv allChains net sched st st'
        (ids : list Z) :
  Selection.chainIds dirname disk argv = Some (Some ids) →
  Selection.main_body pf ToNumber dirname disk argv allChains net sched st
  = Some (Ok st') →
  ∀ k, k ∈ dom (merged st') → k ∉ dom (merged st) →
       ∃ c n, c ∈ allChains
              ∧ k = key c
              ∧ Selection.Number_of ToNumber (chainId c) = Some n
              ∧ n ∈ ids.
Proof.
  intros Hids. unfold Selection.main_body. rewrite Hids.
  intros [= Hrun%main_loop_merged] k Hk Hnew.
  rewrite Hrun in Hk. apply elem_of_union in Hk as [Hold|Hk]; [done |].
  unfold keys in Hk. apply elem_of_list_to_set in Hk.
  apply list_elem_of_fmap in Hk as (c & -> & Hc).
  apply list_elem_of_filter in Hc as [_ Hc].
  apply select_requested in Hc as (Hin & _ & n & Hn & Hn').
  by exists c, n.
Qed.

Lemma requested_only_witness :
  ∃ st',
    Selection.main_body sample_platform (λ _, None) "/app" ∅ Inputs.chains_argv
      Inputs.directory (λ _, first_dead) (λ _, []) fresh_run = Some (Ok st')
    ∧ ∀ k, k ∈ dom (merged st') → k ∉ dom (merged fresh_run) →
           ∃ c n, c ∈ Inputs.directory
                  ∧ k = key c
                  ∧ Selection.Number_of (λ _, None) (chainId c) = Some n
                  ∧ n ∈ [1; 56]%Z.
Proof.
  destruct (Selection.main_body sample_platform (λ _, None) "/app" ∅
              Inputs.chains_argv Inputs.directory (λ _, first_dead) (λ _, [])
              fresh_run) as [[st'|e]|] eqn:Hrun;
    [| vm_compute in Hrun; discriminate ..].
  exists st'. split; [reflexivity |].
  apply (requested_only sample_platform (λ _, None) "/app" ∅ Inputs.chains_argv
           Inputs.directory (λ _, first_dead) (λ _, []) fresh_run st' [1; 56]%Z).
  - reflexivity.
  - exact Hrun.
Defined.

End RunFacts.
